(** * tpot2: [search_spaces/pipelines/dynamic_linear.py]

    A shallow embedding of [DynamicLinearPipelineIndividual] and of its
    generator [DynamicLinearPipeline], followed by the properties of the
    specification that concern them.

    Python objects live in a store: an individual is an address into
    [objects], its [pipeline] a list of references to Step objects, and the
    Step objects themselves (with the search spaces that make them) are
    external collaborators whose state is an abstract type.  Every method is
    a state transformer that either returns or raises, and a raise keeps the
    state reached so far. *)

From stdpp Require Import base option list gmap strings.
From Stdlib Require Import ZArith NArith Lia.

Local Open Scope Z_scope.

(** ** Exceptions and outcomes *)

(** What a call can raise.  [IndexError] records the offending index, which
    Python only reports as "list index out of range".  [StepError] stands for
    whatever a Step or a search space raises.  [NoSuchObject] is a reference
    the store does not hold; no Python run produces it. *)
Inductive Exn : Type :=
  | ValueError (msg : string)
  | IndexError (idx : Z)
  | StepError (msg : string)
  | NoSuchObject.

Inductive Outcome (W A : Type) : Type :=
  | Ret (a : A) (w : W)
  | Raise (e : Exn) (w : W).
Arguments Ret {W A} a w.
Arguments Raise {W A} e w.

(** Stateful, fallible computations over a state [W]. *)
Definition M (W A : Type) : Type := W → Outcome W A.

Definition ret {W A} (a : A) : M W A := λ w, Ret a w.
Definition raise {W A} (e : Exn) : M W A := λ w, Raise e w.
Definition read {W A} (f : W → A) : M W A := λ w, Ret (f w) w.
Definition bind {W A B} (m : M W A) (k : A → M W B) : M W B :=
  λ w, match m w with
       | Ret a w' => k a w'
       | Raise e w' => Raise e w'
       end.

#[global] Instance M_ret {W} : MRet (M W) := λ A, @ret W A.
#[global] Instance M_bind {W} : MBind (M W) := λ A B k m, @bind W A B m k.

Definition final_state {W A} (o : Outcome W A) : W :=
  match o with Ret _ w => w | Raise _ w => w end.

Definition returned {W A} (o : Outcome W A) : option A :=
  match o with Ret a _ => Some a | Raise _ _ => None end.

Definition raised {W A} (o : Outcome W A) : option Exn :=
  match o with Ret _ _ => None | Raise e _ => Some e end.

(** ** The random generator

    [numpy.random.Generator] is outside the repository.  It is modelled by
    its contract over an abstract bit generator: [next_uint64] is one raw
    64-bit output and [seed_rng] is [default_rng(seed)]. *)
Class BitGenerator (G : Type) : Type := {
  seed_rng : N → G;
  next_uint64 : G → N * G
}.

Section Numpy.
Context {G : Type} `{!BitGenerator G} {W : Type}.

Definition uint64 (g : G) : Z * G :=
  let '(r, g') := next_uint64 g in (Z.of_N r mod 2 ^ 64, g').

(** [rng.integers(low, high)]: some value of the half-open [low, high);
    [ValueError] when the interval is empty.  The overflow check of the
    int64 dtype (high above 2^63) is left out. *)
Definition integers (low high : Z) (g : G) : M W (Z * G) :=
  if high <=? low then raise (ValueError "low >= high")
  else let '(r, g') := uint64 g in ret (low + r mod (high - low), g').

(** [rng.random() < 0.5]: the double is [(raw >> 11) * 2^-53], so the
    comparison is exact. *)
Definition coin (g : G) : bool * G :=
  let '(r, g') := uint64 g in (Z.shiftr r 11 <? 2 ^ 52, g').

Definition random_lt_half (g : G) : M W (bool * G) := ret (coin g).

(** [rng.choice(a)] for a Python list [a]. *)
Definition choice {A} (a : list A) (g : G) : M W (A * G) :=
  match a with
  | [] => raise (ValueError "a cannot be empty unless no samples are taken")
  | x :: _ =>
      '(i, g') ← integers 0 (Z.of_nat (length a)) g;
      ret (nth (Z.to_nat i) a x, g')
  end.

(** [rng.shuffle(x)] for a Python list: for [i] from [len-1] down to 1,
    exchange [x[i]] with [x[j]], [j] drawn from the closed [0, i]. *)
Definition swap_items {A} (i j : nat) (l : list A) : list A :=
  match l !! i, l !! j with
  | Some a, Some b => <[i := b]> (<[j := a]> l)
  | _, _ => l
  end.

Fixpoint shuffle_from {A} (i : nat) (x : list A) (g : G) : M W (list A * G) :=
  match i with
  | O => ret (x, g)
  | S i' =>
      '(j, g') ← integers 0 (Z.of_nat i + 1) g;
      shuffle_from i' (swap_items i (Z.to_nat j) x) g'
  end.

Definition shuffle {A} (x : list A) (g : G) : M W (list A * G) :=
  shuffle_from (length x - 1)%nat x g.

(** [rng.choice(n, size, replace=False)]: [size] distinct indices below
    [n], drawn one at a time from those not yet taken. *)
Fixpoint draw_distinct (k : nat) (pool : list nat) (g : G) : M W (list nat * G) :=
  match k with
  | O => ret ([], g)
  | S k' =>
      '(j, g') ← integers 0 (Z.of_nat (length pool)) g;
      let j := Z.to_nat j in
      '(rest, g'') ← draw_distinct k' (delete j pool) g';
      ret (nth j pool O :: rest, g'')
  end.

Definition choice_no_replace (n : nat) (size : Z) (g : G) : M W (list nat * G) :=
  if size <? 0 then raise (ValueError "negative dimensions are not allowed")
  else if (n =? 0)%nat && (0 <? size)
  then raise (ValueError "a cannot be empty unless no samples are taken")
  else if Z.of_nat n <? size
  then raise (ValueError "Cannot take a larger sample than population")
  else draw_distinct (Z.to_nat size) (seq 0 n) g.
End Numpy.

(** ** Steps and search spaces

    The capability contract of the external collaborators.  A Step is a
    reference; what the Step objects hold is the abstract state [X], which
    only these operations read and write.  Each operation receives the
    caller's generator and hands back its state after the draws it made. *)
Class StepContract (G SS Step X K : Type) : Type := {
  ss_generate : SS → G → M X (Step * G);
  step_mutate : Step → G → M X (option bool * G);
  step_crossover : Step → Step → G → M X (bool * G);
  step_unique_id : Step → X → K
}.

(** The [rng] argument of a method: absent, an integer seed, or a generator. *)
Inductive RngArg (G : Type) : Type :=
  | NoRng
  | Seed (n : N)
  | Gen (g : G).
Arguments NoRng {G}.
Arguments Seed {G} n.
Arguments Gen {G} g.

(** The bound methods that [mutate] and [_crossover] put in a list. *)
Inductive MutateOp : Type := RemoveNode | AddNode | MutateStep.
Inductive CxFunc : Type := SwapRandomSteps | InnerStep.

#[global] Instance MutateOp_eq_dec : EqDecision MutateOp.
Proof. solve_decision. Defined.
#[global] Instance CxFunc_eq_dec : EqDecision CxFunc.
Proof. solve_decision. Defined.

(** Modelled from the spec: [TupleIndex] of [..tuple_index] is not among the
    sources; the spec describes it as an order-sensitive, hashable,
    comparable wrapper of the tuple, so two keys are equal exactly when their
    item sequences are. *)
Inductive KeyItem (K : Type) : Type :=
  | Token (s : string)
  | StepKey (k : K).
Arguments Token {K} s.
Arguments StepKey {K} k.

Inductive TupleIndex (K : Type) : Type :=
  | MkTupleIndex (tup : list (KeyItem K)).
Arguments MkTupleIndex {K} tup.

Abbreviation addr := nat (only parsing).

Section Individual.
Context {G SS Step X K : Type}.
Context `{!BitGenerator G} `{!StepContract G SS Step X K}.

Record DynamicLinearPipelineIndividual : Type := {
  search_space : SS;
  min_length : Z;
  max_length : Z;
  pipeline : list Step
}.

Definition with_pipeline (p : list Step) (ind : DynamicLinearPipelineIndividual)
  : DynamicLinearPipelineIndividual :=
  {| search_space := search_space ind; min_length := min_length ind;
     max_length := max_length ind; pipeline := p |}.

(** The whole state: the entropy of the operating system that seeds every
    [default_rng()], the Step objects, and the individuals. *)
Record World : Type := {
  urandom : nat → N;
  reads : nat;
  steps : X;
  objects : gmap addr DynamicLinearPipelineIndividual
}.

Definition set_steps (x : X) (w : World) : World :=
  {| urandom := urandom w; reads := reads w; steps := x; objects := objects w |}.
Definition set_objects (h : gmap addr DynamicLinearPipelineIndividual) (w : World)
  : World :=
  {| urandom := urandom w; reads := reads w; steps := steps w; objects := h |}.

(** A call into a Step or a search space. *)
Definition delegate {A} (m : M X A) : M World A :=
  λ w, match m (steps w) with
       | Ret a x => Ret a (set_steps x w)
       | Raise e x => Raise e (set_steps x w)
       end.

(** [np.random.default_rng(rng)] *)
Definition default_rng (rng : RngArg G) : M World G :=
  match rng with
  | NoRng => λ w,
      Ret (seed_rng (urandom w (reads w)))
          {| urandom := urandom w; reads := S (reads w);
             steps := steps w; objects := objects w |}
  | Seed n => ret (seed_rng n)
  | Gen g => ret g
  end.

Definition modify (f : World → World) : M World unit := λ w, Ret () (f w).

(** Reading and writing the attributes and items of an object. *)
Definition get (self : addr) : M World DynamicLinearPipelineIndividual :=
  λ w, match objects w !! self with
       | Some ind => Ret ind w
       | None => Raise NoSuchObject w
       end.

Definition len_pipeline (self : addr) : M World Z :=
  ind ← get self; ret (Z.of_nat (length (pipeline ind))).

Definition set_pipeline (self : addr) (p : list Step) : M World unit :=
  ind ← get self;
  modify (λ w, set_objects (<[self := with_pipeline p ind]> (objects w)) w).

Definition getitem (self : addr) (idx : nat) : M World Step :=
  ind ← get self;
  match pipeline ind !! idx with
  | Some s => ret s
  | None => raise (IndexError (Z.of_nat idx))
  end.

Definition setitem (self : addr) (idx : nat) (s : Step) : M World unit :=
  ind ← get self;
  if decide (idx < length (pipeline ind))%nat
  then set_pipeline self (<[idx := s]> (pipeline ind))
  else raise (IndexError (Z.of_nat idx)).

(** [list.insert(idx, x)] and [list.pop(idx)], negative indices included. *)
Definition py_insert {A} (idx : Z) (x : A) (l : list A) : list A :=
  let n := Z.of_nat (length l) in
  let i := if idx <? 0 then Z.max 0 (n + idx) else Z.min idx n in
  take (Z.to_nat i) l ++ x :: drop (Z.to_nat i) l.

Definition py_pop {A} (idx : Z) (l : list A) : option (list A) :=
  let n := Z.of_nat (length l) in
  let i := if idx <? 0 then n + idx else idx in
  if (0 <=? i) && (i <? n) then Some (delete (Z.to_nat i) l) else None.

(** A new object, at an address the store does not use yet. *)
Definition allocate (ind : DynamicLinearPipelineIndividual) : M World addr :=
  λ w, let self := fresh (dom (objects w)) in
       Ret self (set_objects (<[self := ind]> (objects w)) w).

(** *** Construction *)

(** The loop of [_generate_pipeline]: [length] calls of
    [search_space.generate], each appended. *)
Fixpoint generate_steps (ss : SS) (n : nat) (pipeline : list Step) (g : G)
  : M World (list Step) :=
  match n with
  | O => ret pipeline
  | S n' =>
      '(s, g') ← delegate (ss_generate ss g);
      generate_steps ss n' (pipeline ++ [s]) g'
  end.

(** [_generate_pipeline] runs while [self] has its three other attributes
    and no [pipeline] yet, so [self] is passed as the values of those. *)
Definition _generate_pipeline (ss : SS) (min_len max_len : Z) (rng : RngArg G)
  : M World (list Step) :=
  g ← default_rng NoRng;
  '(length, g) ← integers min_len max_len g;
  let length := Z.min length 3 in
  generate_steps ss (Z.to_nat length) [] g.

Definition __init__ (ss : SS) (max_len : Z) (rng : RngArg G) : M World addr :=
  g ← default_rng rng;
  p ← _generate_pipeline ss 1 max_len (Gen g);
  allocate {| search_space := ss; min_length := 1;
              max_length := max_len; pipeline := p |}.

(** *** Mutation *)

Definition _mutate_add_node (self : addr) (rng : RngArg G) : M World (option bool) :=
  g ← default_rng NoRng;
  ind ← get self;
  '(new_node, g) ← delegate (ss_generate (search_space ind) g);
  n ← len_pipeline self;
  '(idx, g) ← integers 0 n g;
  ind ← get self;
  _ ← set_pipeline self (py_insert idx new_node (pipeline ind));
  ret None.

Definition _mutate_remove_node (self : addr) (rng : RngArg G) : M World (option bool) :=
  g ← default_rng NoRng;
  n ← len_pipeline self;
  '(idx, g) ← integers 0 n g;
  ind ← get self;
  match py_pop idx (pipeline ind) with
  | Some p => _ ← set_pipeline self p; ret None
  | None => raise (IndexError idx)
  end.

Definition _mutate_step (self : addr) (rng : RngArg G) : M World (option bool) :=
  g ← default_rng NoRng;
  ind ← get self;
  '(step, g) ← choice (pipeline ind) g;
  '(r, g) ← delegate (step_mutate step g);
  ret r.

Definition mutate_options (ind : DynamicLinearPipelineIndividual) : list MutateOp :=
  let n := Z.of_nat (length (pipeline ind)) in
  (if min_length ind <? n then [RemoveNode] else [])
  ++ (if n <? max_length ind then [AddNode] else [])
  ++ [MutateStep].

Definition call_mutate_op (op : MutateOp) (self : addr) (rng : RngArg G)
  : M World (option bool) :=
  match op with
  | RemoveNode => _mutate_remove_node self rng
  | AddNode => _mutate_add_node self rng
  | MutateStep => _mutate_step self rng
  end.

Definition mutate (self : addr) (rng : RngArg G) : M World (option bool) :=
  g ← default_rng NoRng;
  ind ← get self;
  '(op, g) ← choice (mutate_options ind) g;
  call_mutate_op op self (Gen g).

(** *** Crossover *)

(** One pass of the exchange loop:
    [self.pipeline[i], other.pipeline[j] = other.pipeline[j], self.pipeline[i]].
    Both right-hand items are read before either is written, and [self]
    and [other] may be the same object. *)
Definition swap_step (self other : addr) (self_idx other_idx : nat) : M World unit :=
  a ← getitem other other_idx;
  b ← getitem self self_idx;
  _ ← setitem self self_idx a;
  setitem other other_idx b.

Fixpoint swap_steps (self other : addr) (pairs : list (nat * nat)) : M World unit :=
  match pairs with
  | [] => ret ()
  | (self_idx, other_idx) :: rest =>
      _ ← swap_step self other self_idx other_idx;
      swap_steps self other rest
  end.

(** [int(min(a, b) / 2)]: a true division, truncated. *)
Definition half_of_min (a b : Z) : Z := Z.quot (Z.min a b) 2.

Definition n_steps_to_swap (max_steps : Z) (g : G) : M World (Z * G) :=
  if max_steps =? 1 then ret (1, g) else integers 1 max_steps g.

Definition _crossover_swap_random_steps (self other : addr) (rng : RngArg G)
  : M World bool :=
  g ← default_rng NoRng;
  n_self ← len_pipeline self;
  n_other ← len_pipeline other;
  let max_steps := half_of_min n_self n_other in
  let max_steps := Z.max max_steps 1 in
  '(n, g) ← n_steps_to_swap max_steps g;
  '(other_indexes_to_take, g) ← choice_no_replace (Z.to_nat n_other) n g;
  '(self_indexes_to_replace, g) ← choice_no_replace (Z.to_nat n_self) n g;
  _ ← swap_steps self other (zip self_indexes_to_replace other_indexes_to_take);
  ret true.

Definition _crossover_swap_step (self other : addr) (rng : RngArg G) : M World bool :=
  n_self ← len_pipeline self;
  n_other ← len_pipeline other;
  if negb (n_self =? n_other) then ret false
  else if n_self <? 2 then ret false
  else
    g ← default_rng NoRng;
    '(idx, g) ← integers 1 n_self g;
    _ ← swap_step self other (Z.to_nat idx) (Z.to_nat idx);
    ret true.

(** The body of the loop of [_crossover_inner_step] at one index. *)
Definition inner_step_at (self other : addr) (idx : nat) (acc : bool * G)
  : M World (bool * G) :=
  let '(crossover_success, g) := acc in
  '(heads, g) ← random_lt_half g;
  if heads : bool then
    a ← getitem self idx;
    b ← getitem other idx;
    '(r, g) ← delegate (step_crossover a b g);
    ret (if r : bool then true else crossover_success, g)
  else ret (crossover_success, g).

Fixpoint inner_step_loop (self other : addr) (idxs : list nat) (acc : bool * G)
  : M World (bool * G) :=
  match idxs with
  | [] => ret acc
  | idx :: rest =>
      acc' ← inner_step_at self other idx acc;
      inner_step_loop self other rest acc'
  end.

Definition _crossover_inner_step (self other : addr) (rng : RngArg G) : M World bool :=
  g ← default_rng NoRng;
  n ← len_pipeline self;
  '(crossover_success, _) ← inner_step_loop self other (seq 0 (Z.to_nat n)) (false, g);
  ret crossover_success.

Definition call_cx_func (f : CxFunc) (self other : addr) (rng : RngArg G) : M World bool :=
  match f with
  | SwapRandomSteps => _crossover_swap_random_steps self other rng
  | InnerStep => _crossover_inner_step self other rng
  end.

Fixpoint try_cx_funcs (cx_funcs : list CxFunc) (self other : addr) (rng : RngArg G)
  : M World bool :=
  match cx_funcs with
  | [] => ret false
  | cx_func :: rest =>
      ok ← call_cx_func cx_func self other rng;
      if ok : bool then ret true else try_cx_funcs rest self other rng
  end.

Definition _crossover (self other : addr) (rng : RngArg G) : M World bool :=
  g ← default_rng NoRng;
  '(cx_funcs, g) ← shuffle [SwapRandomSteps; InnerStep] g;
  try_cx_funcs cx_funcs self other (Gen g).

(** *** Identity *)

Definition step_ids (x : X) (p : list Step) : list K :=
  (λ step, step_unique_id step x) <$> p.

Definition unique_id_of (x : X) (p : list Step) : TupleIndex K :=
  let l := step_ids x p in
  let l := Token "DynamicLinearPipeline" :: (StepKey <$> l) in
  MkTupleIndex l.

Definition unique_id (self : addr) : M World (TupleIndex K) :=
  ind ← get self;
  x ← read steps;
  ret (unique_id_of x (pipeline ind)).

(** *** The generator class *)

Record DynamicLinearPipeline : Type := {
  gen_search_space : SS;
  gen_max_length : Z
}.

Definition generate (self : DynamicLinearPipeline) (rng : RngArg G) : M World addr :=
  __init__ (gen_search_space self) (gen_max_length self) rng.
End Individual.

(** ** A stub collaborator

    The stub of the specification's example scenarios: a search space is a
    label, [generate] makes a marker Step [{label; rng_draw}] and
    [unique_id] is the label.  The generator reads its seed as a tape of
    64-bit draws, least significant first, so a seed scripts a run. *)
Module Stub.
#[global] Instance tape_generator : BitGenerator N := {|
  seed_rng n := n;
  next_uint64 s := ((s mod 2 ^ 64)%N, (s / 2 ^ 64)%N)
|}.

Record Marker : Type := { label : string; rng_draw : Z }.

Definition redraw (r : Z) (m : Marker) : Marker :=
  {| label := label m; rng_draw := r |}.

Definition stub_generate (ss : string) (g : N) : M (list Marker) (nat * N) :=
  λ x, let '(r, g') := uint64 g in
       Ret (length x, g') (x ++ [{| label := ss; rng_draw := r |}]).

Definition stub_mutate (step : nat) (g : N) : M (list Marker) (option bool * N) :=
  λ x, match x !! step with
       | Some m => let '(r, g') := uint64 g in
                   Ret (Some true, g') (<[step := redraw r m]> x)
       | None => Raise (StepError "no such step") x
       end.

(** The stub's crossover copies the other marker's draw. *)
Definition stub_crossover (step other : nat) (g : N) : M (list Marker) (bool * N) :=
  λ x, match x !! step, x !! other with
       | Some m, Some o =>
           Ret (negb (rng_draw m =? rng_draw o), g) (<[step := redraw (rng_draw o) m]> x)
       | _, _ => Raise (StepError "no such step") x
       end.

Definition stub_unique_id (step : nat) (x : list Marker) : string :=
  match x !! step with Some m => label m | None => "" end.

#[global] Instance stub_contract : StepContract N string nat (list Marker) string := {|
  ss_generate := stub_generate;
  step_mutate := stub_mutate;
  step_crossover := stub_crossover;
  step_unique_id := stub_unique_id
|}.

Abbreviation Individual := (@DynamicLinearPipelineIndividual string nat).
Abbreviation StubWorld := (@World string nat (list Marker)).

Definition individual (max_len : Z) (p : list nat) : Individual :=
  {| search_space := "S"; min_length := 1; max_length := max_len; pipeline := p |}.

Definition marker (l : string) : Marker := {| label := l; rng_draw := 0 |}.

(** A world whose operating system hands out the seeds [seeds] in turn
    (and 0 afterwards). *)
Definition world (seeds : list N) (x : list Marker) (h : list (nat * Individual))
  : StubWorld :=
  {| urandom := λ i, nth i seeds 0%N; reads := 0; steps := x;
     objects := list_to_map h |}.

Definition pipeline_at (self : nat) (w : StubWorld) : option (list nat) :=
  pipeline <$> objects w !! self.

(** The worlds of the example scenarios.  Steps 0 to 5 are the markers A
    to F, with the draws 1 to 6. *)
Definition markers : list Marker :=
  [ {| label := "A"; rng_draw := 1 |}; {| label := "B"; rng_draw := 2 |};
    {| label := "C"; rng_draw := 3 |}; {| label := "D"; rng_draw := 4 |};
    {| label := "E"; rng_draw := 5 |}; {| label := "F"; rng_draw := 6 |} ].

Definition gen5 : @DynamicLinearPipeline string :=
  {| gen_search_space := "S"; gen_max_length := 5 |}.

Definition abc : Individual := individual 3 [0; 1; 2]%nat.
Definition abcd : Individual := individual 5 [0; 1; 2; 3]%nat.
Definition de : Individual := individual 5 [3; 4]%nat.
Definition ef : Individual := individual 5 [4; 5]%nat.

(** One individual [A, B, C] with [max_length = 3]. *)
Definition world_abc (seeds : list N) : StubWorld :=
  world seeds markers [(0%nat, abc)].

(** [X = [A, B, C, D]] at address 0 and [Y = [E, F]] at address 1. *)
Definition world_swap (seeds : list N) : StubWorld :=
  world seeds markers [(0%nat, abcd); (1%nat, ef)].

(** [self = [A, B, C]] at address 0 and the shorter [other = [D, E]] at
    address 1. *)
Definition world_mismatch (seeds : list N) : StubWorld :=
  world seeds markers [(0%nat, abc); (1%nat, de)].

(** A seed whose first two coins fall on heads and whose third falls on
    tails: the third 64-bit draw is [2^63]. *)
Definition heads_heads_tails : N := (2 ^ 191)%N.

(** generate, generate, mutate, crossover, every call with the seed
    [seed]; the result is the two pipelines and what crossover returned. *)
Definition run_with_seed (seed : N)
  : M StubWorld (option (list nat) * option (list nat) * bool) :=
  a ← generate gen5 (Seed seed);
  b ← generate gen5 (Seed seed);
  _ ← mutate a (Seed seed);
  ok ← _crossover a b (Seed seed);
  read (λ w, (pipeline_at a w, pipeline_at b w, ok)).
End Stub.

(** ** Vocabulary of the properties *)

(** [m] takes every state to an [R]-related one, returning or raising. *)
Definition keeps {W A} (R : relation W) (m : M W A) : Prop :=
  ∀ w, R w (final_state (m w)).

(** The same, for the runs of [m] that raise. *)
Definition keeps_on_raise {W A} (R : relation W) (m : M W A) : Prop :=
  ∀ w e w', m w = Raise e w' → R w w'.

Section Vocabulary.
Context {G SS Step X K : Type}.
Context `{!BitGenerator G} `{!StepContract G SS Step X K}.

Abbreviation World' := (@World SS Step X).

(** Every individual has the pipeline it had: the same Step references at
    the same positions, hence also the same length. *)
Definition same_objects (w w' : World') : Prop := objects w' = objects w.

Definition lengths (w : World') : gmap addr nat :=
  (λ ind, length (pipeline ind)) <$> objects w.

(** The search space [ss] never raises. *)
Definition generate_total (ss : SS) : Prop :=
  ∀ (g : G) (x : X), ∃ s g' x', ss_generate ss g x = Ret (s, g') x'.

(** In the states that satisfy [Inv], [Step.crossover] between a Step of
    [ps] and a Step of [po] returns, in a state that satisfies [Inv]. *)
Definition crossover_returns (Inv : X → Prop) (ps po : list Step) : Prop :=
  ∀ (a b : Step) (g : G) (x : X),
    a ∈ ps → b ∈ po → Inv x →
    ∃ r g' x', step_crossover a b g x = Ret (r, g') x' ∧ Inv x'.

(** Step [s] is what some call of [ss]'s [generate] returned. *)
Definition generated_by (ss : SS) (s : Step) : Prop :=
  ∃ (g : G) (x : X) g' x', ss_generate ss g x = Ret (s, g') x'.

(** The top-level crossover as the specification words it: try [first];
    on success return true at once; otherwise the result is [second]'s. *)
Definition try_in_order (first second : CxFunc) (self other : addr) (rng : RngArg G)
  : M World' bool :=
  λ w, match call_cx_func first self other rng w with
       | Ret true w1 => Ret true w1
       | Ret false w1 =>
           match call_cx_func second self other rng w1 with
           | Ret ok w2 => Ret ok w2
           | Raise e w2 => Raise e w2
           end
       | Raise e w1 => Raise e w1
       end.

(** The first of the indices [idxs] at which the coin of
    [_crossover_inner_step] falls on heads, one flip per index. *)
Fixpoint first_heads (idxs : list nat) (g : G) : option nat :=
  match idxs with
  | [] => None
  | idx :: rest =>
      let '(heads, g') := coin g in
      if heads : bool then Some idx else first_heads rest g'
  end.

(** One call of [Step.crossover] between the Steps at one index of the
    two pipelines [ps] and [po]. *)
Inductive crossover_at_matching_index (ps po : list Step) : relation X :=
  | matching_call (i : nat) (a b : Step) (g : G) (x : X) :
      ps !! i = Some a → po !! i = Some b →
      crossover_at_matching_index ps po x (final_state (step_crossover a b g x)).

(** The pipelines after the exchange loop ran over [pairs], for two
    different individuals. *)
Fixpoint exchange (pairs : list (nat * nat)) (ps po : list Step)
  : list Step * list Step :=
  match pairs with
  | [] => (ps, po)
  | (i, j) :: rest =>
      match po !! j, ps !! i with
      | Some a, Some b => exchange rest (<[i := a]> ps) (<[j := b]> po)
      | _, _ => (ps, po)
      end
  end.
End Vocabulary.

(** ** Export

    [export_pipeline] needs one more capability of a Step, its own
    [export_pipeline()], which takes no generator. *)
Class StepExport (Step X E : Type) : Type := {
  step_export_pipeline : Step → M X E
}.

(** Modelled from the spec: [sklearn.pipeline.make_pipeline] is outside the
    repository; the spec describes its result as the sequential composition
    of the stages it is given, in their order. *)
Record SklearnPipeline (E : Type) : Type := { stages : list E }.
Arguments stages {E} _.

Definition make_pipeline {E} (steps : list E) : SklearnPipeline E :=
  {| stages := steps |}.

Section ExportPipeline.
Context {SS Step X E : Type} `{!StepExport Step X E}.

(** [[step.export_pipeline() for step in self.pipeline]] *)
Fixpoint export_steps (p : list Step) : M (@World SS Step X) (list E) :=
  match p with
  | [] => ret []
  | step :: rest =>
      e ← delegate (step_export_pipeline step);
      es ← export_steps rest;
      ret (e :: es)
  end.

Definition export_pipeline (self : addr) : M (@World SS Step X) (SklearnPipeline E) :=
  ind ← get self;
  es ← export_steps (pipeline ind);
  ret (make_pipeline es).
End ExportPipeline.

(** ** Vocabulary of the further properties *)

Section Frames.
Context {G SS Step X K : Type}.
Context `{!BitGenerator G} `{!StepContract G SS Step X K}.

(** What an individual is apart from the Steps it holds: its search space,
    its two bounds and the length of its pipeline. *)
Definition shape (w : @World SS Step X) : gmap addr (SS * Z * Z * nat) :=
  (λ ind, (search_space ind, min_length ind, max_length ind, length (pipeline ind)))
    <$> objects w.

Definition pipeline_or_empty (w : @World SS Step X) (a : addr) : list Step :=
  default [] (pipeline <$> objects w !! a).

(** The Steps that [self] and [other] hold between them; those of [self]
    alone when the two are one object. *)
Definition joint_steps (self other : addr) (w : @World SS Step X) : list Step :=
  if decide (self = other) then pipeline_or_empty w self
  else pipeline_or_empty w self ++ pipeline_or_empty w other.

(** From [w] to [w'], Steps at most moved between the pipelines of [self]
    and [other]: every shape is kept, the two pipelines hold the same Steps
    as before, as often as before, and every other individual is as it
    was. *)
Definition exchanged (self other : addr) (w w' : @World SS Step X) : Prop :=
  shape w' = shape w
  ∧ joint_steps self other w' ≡ₚ joint_steps self other w
  ∧ ∀ a, a ≠ self → a ≠ other → objects w' !! a = objects w !! a.

(** The length invariant of the data model, for every individual. *)
Definition within_bounds (w : @World SS Step X) : Prop :=
  map_Forall (λ _ ind, min_length ind = 1
                       ∧ 1 <= Z.of_nat (length (pipeline ind)) <= max_length ind)
             (objects w).

(** The calls of the public interface, and the state each leaves, whether
    it returns or raises. *)
Inductive Call : Type :=
  | CallGenerate (gen : @DynamicLinearPipeline SS) (rng : RngArg G)
  | CallMutate (self : addr) (rng : RngArg G)
  | CallCrossover (self other : addr) (rng : RngArg G).

Definition run_call (c : Call) (w : @World SS Step X) : @World SS Step X :=
  match c with
  | CallGenerate gen rng => final_state (generate gen rng w)
  | CallMutate self rng => final_state (mutate self rng w)
  | CallCrossover self other rng => final_state (_crossover self other rng w)
  end.

Definition run_calls (cs : list Call) (w : @World SS Step X) : @World SS Step X :=
  foldl (λ w c, run_call c w) w cs.
End Frames.

Module StubExport.
(** The stub exports a Step as its label, and fails on a Step it does not
    hold. *)
#[global] Instance stub_export : StepExport nat (list Stub.Marker) string := {|
  step_export_pipeline step :=
    λ x, match x !! step with
         | Some m => Ret (Stub.label m) x
         | None => Raise (StepError "no such step") x
         end
|}.

(** Steps that never cross over: the stub, with a [crossover] that
    reports failure and changes nothing. *)
Definition frozen_contract : StepContract N string nat (list Stub.Marker) string := {|
  ss_generate := Stub.stub_generate;
  step_mutate := Stub.stub_mutate;
  step_crossover := λ _ _ g x, Ret (false, g) x;
  step_unique_id := Stub.stub_unique_id
|}.

(** A generator with [max_length = 1], which leaves no length to sample. *)
Definition gen1 : @DynamicLinearPipeline string :=
  {| gen_search_space := "S"; gen_max_length := 1 |}.

(** Three coins that fall on tails. *)
Definition tails_tails_tails : N := (2 ^ 63 + 2 ^ 127 + 2 ^ 191)%N.

(** An individual without Steps, as a direct call of the remove operator
    on a one-Step pipeline leaves it. *)
Definition world_empty (seeds : list N) : Stub.StubWorld :=
  Stub.world seeds Stub.markers [(0%nat, Stub.individual 5 []); (1%nat, Stub.ef)].

(** [[A, B, C]] and [[D, E, F]], of equal length. *)
Definition world_equal (seeds : list N) : Stub.StubWorld :=
  Stub.world seeds Stub.markers
    [(0%nat, Stub.individual 5 [0; 1; 2]%nat); (1%nat, Stub.individual 5 [3; 4; 5]%nat)].
End StubExport.

(** * Properties *)

Ltac unfold_monad :=
  unfold mbind, M_bind, bind, mret, M_ret, ret, raise in *.

(** ** Outcomes of the generator's methods *)

Section NumpyFacts.
Context {G : Type} `{!BitGenerator G} {W : Type}.

Lemma uint64_range (g : G) : 0 <= (uint64 g).1 < 2 ^ 64.
Proof.
  unfold uint64. destruct (next_uint64 g) as [r g']. simpl.
  apply Z.mod_pos_bound. lia.
Qed.

(** [integers] leaves the state alone, raises exactly on an empty
    interval and otherwise returns a value of the interval. *)
Lemma integers_spec (low high : Z) (g : G) (w : W) :
  match integers low high g w with
  | Ret (v, _) w' => w' = w ∧ low <= v < high
  | Raise _ w' => w' = w ∧ high <= low
  end.
Proof.
  unfold integers. destruct (Z.leb_spec high low).
  - simpl. split; [done | lia].
  - pose proof (uint64_range g). destruct (uint64 g) as [r g']. simpl in *.
    split; [done |]. pose proof (Z.mod_pos_bound r (high - low)). lia.
Qed.

Lemma integers_ok (low high : Z) (g : G) (w : W) :
  low < high →
  ∃ v g', integers low high g w = Ret (v, g') w ∧ low <= v < high.
Proof.
  intros Hlt. pose proof (integers_spec low high g w) as H.
  destruct (integers low high g w) as [[v g'] w' | e w'].
  - destruct H as [-> H]. eauto.
  - lia.
Qed.

Lemma choice_spec {A} (a : list A) (g : G) (w : W) :
  match choice a g w with
  | Ret (x, _) w' => w' = w ∧ x ∈ a
  | Raise _ w' => w' = w ∧ a = []
  end.
Proof.
  destruct a as [| x a]; [done |]. unfold choice. unfold_monad.
  pose proof (integers_spec 0 (Z.of_nat (length (x :: a))) g w) as H.
  destruct (integers 0 (Z.of_nat (length (x :: a))) g w) as [[v g'] w' | e w'].
  - destruct H as [-> H]. split; [done |].
    apply list_elem_of_In, nth_In. lia.
  - simpl in H. lia.
Qed.

(** Shuffling a two-item list keeps it or exchanges the two. *)
Lemma shuffle_pair {A} (a b : A) (g : G) (w : W) :
  ∃ g', shuffle [a; b] g w = Ret ([a; b], g') w
        ∨ shuffle [a; b] g w = Ret ([b; a], g') w.
Proof.
  unfold shuffle. change (length [a; b] - 1)%nat with 1%nat.
  cbn [shuffle_from]. unfold_monad.
  pose proof (integers_spec 0 (Z.of_nat 1 + 1) g w) as H.
  destruct (integers 0 (Z.of_nat 1 + 1) g w) as [[j g'] w' | e w'].
  - destruct H as [-> H]. exists g'.
    assert (j = 0 ∨ j = 1) as [-> | ->] by lia; [right | left]; done.
  - lia.
Qed.

Lemma draw_distinct_spec (k : nat) (pool : list nat) (g : G) (w : W) :
  (k ≤ length pool)%nat → NoDup pool →
  ∃ l g', draw_distinct k pool g w = Ret (l, g') w
          ∧ length l = k ∧ NoDup l ∧ l ⊆ pool.
Proof.
  revert pool g. induction k as [| k IH]; intros pool g Hk Hnd.
  - exists [], g. repeat split; [constructor | set_solver].
  - simpl. unfold_monad.
    destruct (integers_ok 0 (Z.of_nat (length pool)) g w) as (j & g1 & -> & Hj);
      [lia |].
    assert (Z.to_nat j < length pool)%nat as Hlt by lia.
    destruct (lookup_lt_is_Some_2 pool (Z.to_nat j) Hlt) as [x Hx].
    assert (nth (Z.to_nat j) pool O = x) as ->.
    { by apply nth_lookup_Some with (d := O) in Hx. }
    pose proof (take_drop_middle pool _ x Hx) as Hmid.
    assert (delete (Z.to_nat j) pool = take (Z.to_nat j) pool ++ drop (S (Z.to_nat j)) pool)
      as Hdel by apply delete_take_drop.
    assert (NoDup (x :: delete (Z.to_nat j) pool)) as Hnd'.
    { rewrite Hdel. rewrite <- Hmid in Hnd.
      apply NoDup_app in Hnd as (H1 & H2 & H3).
      apply NoDup_cons in H3 as [H3 H4].
      apply NoDup_cons. split.
      - rewrite elem_of_app. intros [Hin | Hin]; [| done].
        apply (H2 _ Hin). left.
      - apply NoDup_app. repeat split; [done | | done].
        intros y Hy Hy'. apply (H2 _ Hy). by right. }
    apply NoDup_cons in Hnd' as [Hnotin Hnd'].
    destruct (IH (delete (Z.to_nat j) pool) g1) as (l & g2 & -> & Hlen & Hl & Hsub).
    { rewrite length_delete; [lia | eauto]. }
    { done. }
    exists (x :: l), g2. repeat split.
    + simpl. by rewrite Hlen.
    + apply NoDup_cons. split; [| done]. intros Hin. apply Hnotin, Hsub, Hin.
    + intros y Hy. apply elem_of_cons in Hy as [-> | Hy].
      * eapply list_elem_of_lookup_2; eauto.
      * apply Hsub in Hy. rewrite Hdel in Hy. rewrite <- Hmid.
        rewrite elem_of_app in Hy. rewrite elem_of_app, elem_of_cons. tauto.
Qed.

(** [choice(n, size, replace=False)] leaves the state alone; when it
    returns, it returns [size] distinct indices below [n]. *)
Lemma choice_no_replace_spec (n : nat) (size : Z) (g : G) (w : W) :
  match choice_no_replace n size g w with
  | Ret (l, _) w' =>
      w' = w ∧ Z.of_nat (length l) = size ∧ NoDup l ∧ Forall (λ i, (i < n)%nat) l
  | Raise _ w' => w' = w ∧ (size < 0 ∨ Z.of_nat n < size)
  end.
Proof.
  unfold choice_no_replace.
  destruct (Z.ltb_spec size 0); [simpl; split; [done | lia] |].
  destruct (Nat.eqb_spec n 0), (Z.ltb_spec 0 size); simpl;
    try (split; [done | lia]).
  - subst n. destruct (Z.ltb_spec (Z.of_nat 0) size); [lia |].
    assert (size = 0) as -> by lia. simpl. repeat split; constructor.
  - destruct (Z.ltb_spec (Z.of_nat n) size); [simpl; split; [done | lia] |].
    destruct (draw_distinct_spec (Z.to_nat size) (seq 0 n) g w)
      as (l & g' & -> & Hlen & Hnd & Hsub).
    { rewrite length_seq. lia. }
    { apply NoDup_seq. }
    repeat split; [lia | done |].
    apply Forall_forall. intros i Hi. apply Hsub, elem_of_seq in Hi. lia.
  - destruct (Z.ltb_spec (Z.of_nat n) size); [lia |].
    assert (size = 0) as -> by lia. simpl. repeat split; constructor.
Qed.
End NumpyFacts.

(** ** The monad and the store *)

Section MonadFacts.
Context {W : Type} (R : relation W) `{!PreOrder R}.

Lemma keeps_ret {A} (a : A) : keeps R (ret a).
Proof. intros w. simpl. reflexivity. Qed.

Lemma keeps_bind {A B} (m : M W A) (k : A → M W B) :
  keeps R m → (∀ a, keeps R (k a)) → keeps R (m ≫= k).
Proof.
  intros Hm Hk w. unfold_monad. specialize (Hm w).
  destruct (m w) as [a w1 | e w1]; simpl in *; [| done].
  etrans; [exact Hm | apply Hk].
Qed.

Lemma keeps_stateless {A} (m : M W A) :
  (∀ w, final_state (m w) = w) → keeps R m.
Proof. intros H w. rewrite H. reflexivity. Qed.

End MonadFacts.

Section StoreFacts.
Context {G SS Step X K : Type}.
Context `{!BitGenerator G} `{!StepContract G SS Step X K}.

Implicit Types (w : @World SS Step X) (self other : addr) (rng : RngArg G).
Implicit Types (ind : @DynamicLinearPipelineIndividual SS Step).
Local Abbreviation unchanged := (@same_objects SS Step X).

#[global] Instance same_objects_preorder : PreOrder (@same_objects SS Step X).
Proof.
  split; [done |]. intros w1 w2 w3 H12 H23. unfold same_objects in *. congruence.
Qed.

Lemma default_rng_spec rng w :
  ∃ g w', default_rng rng w = Ret g w'
          ∧ objects w' = objects w ∧ steps w' = steps w ∧ urandom w' = urandom w.
Proof. destruct rng; simpl; unfold ret; eauto 10. Qed.

Lemma keeps_default_rng rng : keeps unchanged (default_rng rng).
Proof.
  intros w. destruct (default_rng_spec rng w) as (g & w' & -> & Ho & _). done.
Qed.

Lemma get_Some self ind w : objects w !! self = Some ind → get self w = Ret ind w.
Proof. intros H. unfold get. by rewrite H. Qed.

Lemma get_None self w : objects w !! self = None → get self w = Raise NoSuchObject w.
Proof. intros H. unfold get. by rewrite H. Qed.

Lemma get_stateless self w : final_state (get self w) = w.
Proof. unfold get. by destruct (objects w !! self). Qed.

Lemma len_pipeline_Some self ind w :
  objects w !! self = Some ind →
  len_pipeline self w = Ret (Z.of_nat (length (pipeline ind))) w.
Proof. intros H. unfold len_pipeline. unfold_monad. by rewrite (get_Some _ _ _ H). Qed.

Lemma len_pipeline_None self w :
  objects w !! self = None → len_pipeline self w = Raise NoSuchObject w.
Proof. intros H. unfold len_pipeline. unfold_monad. by rewrite (get_None _ _ H). Qed.

Lemma getitem_stateless self idx w : final_state (getitem self idx w) = w.
Proof.
  unfold getitem. unfold_monad. unfold get.
  destruct (objects w !! self) as [ind |]; [| done].
  by destruct (pipeline ind !! idx).
Qed.

Lemma keeps_delegate {A} (m : M X A) : keeps unchanged (delegate m).
Proof. intros w. unfold delegate. by destruct (m (steps w)). Qed.

Lemma set_pipeline_Some self ind p w :
  objects w !! self = Some ind →
  set_pipeline self p w
  = Ret () (set_objects (<[self := with_pipeline p ind]> (objects w)) w).
Proof. intros H. unfold set_pipeline. unfold_monad. by rewrite (get_Some _ _ _ H). Qed.

(** *** Construction *)

Lemma generate_steps_spec (ss : SS) (n : nat) (acc : list Step) (g : G) w :
  match generate_steps ss n acc g w with
  | Ret p w' =>
      length p = (length acc + n)%nat ∧ objects w' = objects w
      ∧ (Forall (generated_by ss) acc → Forall (generated_by ss) p)
  | Raise _ w' => objects w' = objects w
  end.
Proof.
  revert acc g w. induction n as [| n IH]; intros acc g w.
  - simpl. unfold ret. repeat split; [lia | done].
  - simpl. unfold_monad. unfold delegate.
    destruct (ss_generate ss g (steps w)) as [[s g'] x | e x] eqn:Hgen; [| done].
    specialize (IH (acc ++ [s]) g' (set_steps x w)).
    destruct (generate_steps ss n (acc ++ [s]) g' (set_steps x w)) as [p w' | e w'];
      [| done].
    destruct IH as (Hlen & Hobj & Hgenby). rewrite length_app in Hlen. simpl in *.
    repeat split; [lia | done |].
    intros Hacc. apply Hgenby, Forall_app. split; [done |].
    constructor; [| constructor]. by exists g, (steps w), g', x.
Qed.


Lemma allocate_spec ind w :
  ∃ self w', allocate ind w = Ret self w'
             ∧ objects w !! self = None
             ∧ objects w' = <[self := ind]> (objects w).
Proof.
  unfold allocate. eexists _, _. split; [done |]. split; [| done].
  apply not_elem_of_dom, is_fresh.
Qed.
End StoreFacts.

(** ** The claims *)

Section Claims.
Context {G SS Step X K : Type}.
Context `{!BitGenerator G} `{!StepContract G SS Step X K}.

Implicit Types (w : @World SS Step X) (self other : addr) (rng : RngArg G).
Implicit Types (ind : @DynamicLinearPipelineIndividual SS Step).
Local Abbreviation unchanged := (@same_objects SS Step X).


(** *** Mutation *)

Lemma py_insert_in_range {A} (idx : Z) (x : A) (l : list A) :
  0 <= idx <= Z.of_nat (length l) →
  py_insert idx x l = take (Z.to_nat idx) l ++ x :: drop (Z.to_nat idx) l.
Proof.
  intros H. unfold py_insert.
  destruct (Z.ltb_spec idx 0); [lia |]. by rewrite Z.min_l by lia.
Qed.

Lemma py_pop_in_range {A} (idx : Z) (l : list A) :
  0 <= idx < Z.of_nat (length l) → py_pop idx l = Some (delete (Z.to_nat idx) l).
Proof.
  intros H. unfold py_pop.
  destruct (Z.ltb_spec idx 0); [lia |].
  destruct (Z.leb_spec 0 idx); [| lia].
  destruct (Z.ltb_spec idx (Z.of_nat (length l))); [done | lia].
Qed.

(** What [_mutate_add_node] does, returning or raising. *)
Lemma mutate_add_node_spec self rng w ind :
  objects w !! self = Some ind →
  match _mutate_add_node self rng w with
  | Ret r w' =>
      r = None
      ∧ ∃ new_node (idx : nat) g g',
          ss_generate (search_space ind) g (steps w) = Ret (new_node, g') (steps w')
          ∧ (idx < length (pipeline ind))%nat
          ∧ objects w'
            = <[self := with_pipeline
                          (take idx (pipeline ind) ++ new_node :: drop idx (pipeline ind))
                          ind]> (objects w)
  | Raise e w' =>
      objects w' = objects w
      ∧ (pipeline ind = []
         ∨ ∃ g, raised (ss_generate (search_space ind) g (steps w)) = Some e)
  end.
Proof.
  intros Hself. unfold _mutate_add_node. unfold_monad. simpl.
  rewrite (get_Some self ind) by done. unfold delegate. simpl.
  destruct (ss_generate _ _ (steps w)) as [[new_node g1] x1 | e x1] eqn:Hgen.
  - rewrite (len_pipeline_Some self ind) by done.
    match goal with |- context [integers ?a ?b ?c ?d] =>
      pose proof (integers_spec a b c d) as Hint;
      destruct (integers a b c d) as [[idx g2] w2 | e2 w2] end.
    + destruct Hint as [-> Hidx].
      rewrite (get_Some self ind) by done.
      rewrite (set_pipeline_Some self ind) by done.
      split; [done |]. eexists new_node, (Z.to_nat idx), _, g1. simpl.
      split; [exact Hgen |]. split; [lia |].
      rewrite py_insert_in_range by lia. done.
    + destruct Hint as [-> Hlen]. simpl. split; [done |]. left.
      destruct (pipeline ind); [done | simpl in Hlen; lia].
  - simpl. split; [done |]. right. eexists. by rewrite Hgen.
Qed.

(** C9.  The add mutation generates exactly one new Step from the search
    space, picks an insertion index of the half-open [[0, len(pipeline))],
    inserts the Step before that index, succeeds, and makes the pipeline
    one longer; as the index is below the length, the Step never lands
    after the last position.  The pipeline is not empty (the invariant
    [min_length <= len(pipeline)]) and the search space does not raise. *)
Theorem mutate_add_node_inserts self rng w ind :
  objects w !! self = Some ind →
  pipeline ind ≠ [] →
  generate_total (search_space ind) →
  ∃ new_node (idx : nat) g g' w' p',
    _mutate_add_node self rng w = Ret None w'
    ∧ ss_generate (search_space ind) g (steps w) = Ret (new_node, g') (steps w')
    ∧ (idx < length (pipeline ind))%nat
    ∧ p' = take idx (pipeline ind) ++ new_node :: drop idx (pipeline ind)
    ∧ objects w' = <[self := with_pipeline p' ind]> (objects w)
    ∧ length p' = S (length (pipeline ind))
    ∧ last p' = last (pipeline ind).
Proof.
  intros Hself Hne Htot.
  pose proof (mutate_add_node_spec self rng w ind Hself) as Hspec.
  destruct (_mutate_add_node self rng w) as [r w' | e w'].
  - destruct Hspec as (-> & new_node & idx & g & g' & Hgen & Hidx & Hobj).
    eexists new_node, idx, g, g', w', _.
    repeat split; try done.
    + rewrite length_app. simpl. rewrite length_take, length_drop. lia.
    + assert (drop idx (pipeline ind) ≠ []) as Hdrop.
      { intros Hnil. apply (f_equal length) in Hnil.
        rewrite length_drop in Hnil. simpl in Hnil. lia. }
      rewrite last_app_cons. rewrite last_cons.
      rewrite <- (take_drop idx (pipeline ind)) at 2.
      rewrite last_app. destruct (last (drop idx (pipeline ind))) eqn:Hlast; [done |].
      by apply last_None in Hlast.
  - destruct Hspec as (_ & [Hnil | (g & Hraise)]); [done |].
    destruct (Htot g (steps w)) as (s & g' & x' & Heq). by rewrite Heq in Hraise.
Qed.

Lemma mutate_remove_node_spec self rng w ind :
  objects w !! self = Some ind →
  match _mutate_remove_node self rng w with
  | Ret r w' =>
      r = None ∧ steps w' = steps w
      ∧ ∃ idx : nat,
          (idx < length (pipeline ind))%nat
          ∧ objects w'
            = <[self := with_pipeline (delete idx (pipeline ind)) ind]> (objects w)
  | Raise e w' => objects w' = objects w ∧ pipeline ind = []
  end.
Proof.
  intros Hself. unfold _mutate_remove_node. unfold_monad. simpl.
  rewrite (len_pipeline_Some self ind) by done.
  match goal with |- context [integers ?a ?b ?c ?d] =>
    pose proof (integers_spec a b c d) as Hint;
    destruct (integers a b c d) as [[idx g2] w2 | e2 w2] end.
  - destruct Hint as [-> Hidx].
    rewrite (get_Some self ind) by done.
    rewrite py_pop_in_range by lia.
    rewrite (set_pipeline_Some self ind) by done.
    repeat split. exists (Z.to_nat idx). split; [lia | done].
  - destruct Hint as [-> Hlen]. simpl. split; [done |].
    destruct (pipeline ind); [done | simpl in Hlen; lia].
Qed.

Lemma mutate_step_spec self rng w ind :
  objects w !! self = Some ind →
  objects (final_state (_mutate_step self rng w)) = objects w
  ∧ (pipeline ind = [] → ∃ e w', _mutate_step self rng w = Raise e w')
  ∧ (pipeline ind ≠ [] →
     ∃ step g w0, step ∈ pipeline ind ∧ objects w0 = objects w ∧ steps w0 = steps w
       ∧ _mutate_step self rng w
         = ('(r, g) ← delegate (step_mutate step g); ret r) w0).
Proof.
  intros Hself. unfold _mutate_step. unfold_monad. simpl.
  rewrite (get_Some self ind) by done.
  match goal with |- context [choice ?a ?b ?c] =>
    pose proof (choice_spec a b c) as Hch;
    destruct (choice a b c) as [[step g1] w1 | e1 w1] end.
  - destruct Hch as [-> Hin]. unfold delegate. simpl.
    split; [| split].
    + by destruct (step_mutate step g1 (steps w)) as [[r g2] x | e x].
    + intros Hnil. rewrite Hnil in Hin. by apply elem_of_nil in Hin.
    + intros _.
      exists step, g1, {| urandom := urandom w; reads := S (reads w);
                          steps := steps w; objects := objects w |}.
      by repeat split.
  - destruct Hch as [-> Hnil]. simpl. split; [done |]. split; [eauto | done].
Qed.

Lemma mutate_options_elem ind (op : MutateOp) :
  op ∈ mutate_options ind ↔
  match op with
  | RemoveNode => min_length ind < Z.of_nat (length (pipeline ind))
  | AddNode => Z.of_nat (length (pipeline ind)) < max_length ind
  | MutateStep => True
  end.
Proof.
  unfold mutate_options.
  destruct (Z.ltb_spec (min_length ind) (Z.of_nat (length (pipeline ind))));
    destruct (Z.ltb_spec (Z.of_nat (length (pipeline ind))) (max_length ind));
    destruct op; simpl; rewrite ?elem_of_cons, ?elem_of_nil;
    intuition (try discriminate; try lia).
Qed.

(** [mutate] seeds a generator, picks one of the legal operators and
    calls it. *)
Lemma mutate_dispatch self rng w ind :
  objects w !! self = Some ind →
  ∃ op g w0,
    op ∈ mutate_options ind
    ∧ objects w0 = objects w ∧ steps w0 = steps w
    ∧ mutate self rng w = call_mutate_op op self (Gen g) w0.
Proof.
  intros Hself. unfold mutate. unfold_monad. simpl.
  rewrite (get_Some self ind) by done.
  match goal with |- context [choice ?a ?b ?c] =>
    pose proof (choice_spec a b c) as Hch;
    destruct (choice a b c) as [[op g1] w1 | e1 w1] end.
  - destruct Hch as [-> Hin].
    exists op, g1, {| urandom := urandom w; reads := S (reads w);
                      steps := steps w; objects := objects w |}.
    by repeat split.
  - destruct Hch as [_ Hnil].
    assert (MutateStep ∈ mutate_options ind) as Hin.
    { by apply mutate_options_elem. }
    rewrite Hnil in Hin. by apply elem_of_nil in Hin.
Qed.

(** C3.  The dispatcher offers remove exactly when
    [len(pipeline) > min_length], add exactly when
    [len(pipeline) < max_length] and step always; it calls one operator of
    that list; and whatever the call does, the pipeline afterwards is not
    shorter than [min_length] if it was not before, and not longer than
    [max_length] if it was not before; at [min_length] it does not shrink
    and at [max_length] it does not grow. *)
Theorem mutate_respects_bounds self rng w ind :
  objects w !! self = Some ind →
  let n := Z.of_nat (length (pipeline ind)) in
  (RemoveNode ∈ mutate_options ind ↔ min_length ind < n)
  ∧ (AddNode ∈ mutate_options ind ↔ n < max_length ind)
  ∧ MutateStep ∈ mutate_options ind
  ∧ (∃ op g w0,
       op ∈ mutate_options ind ∧ objects w0 = objects w ∧ steps w0 = steps w
       ∧ mutate self rng w = call_mutate_op op self (Gen g) w0)
  ∧ (∃ ind',
       objects (final_state (mutate self rng w)) !! self = Some ind'
       ∧ search_space ind' = search_space ind
       ∧ min_length ind' = min_length ind ∧ max_length ind' = max_length ind
       ∧ let n' := Z.of_nat (length (pipeline ind')) in
         (min_length ind <= n → min_length ind <= n')
         ∧ (n <= max_length ind → n' <= max_length ind)
         ∧ (n <= min_length ind → n <= n')
         ∧ (max_length ind <= n → n' <= n)
         ∧ n - 1 <= n' <= n + 1).
Proof.
  intros Hself n.
  split; [apply (mutate_options_elem ind RemoveNode) |].
  split; [apply (mutate_options_elem ind AddNode) |].
  split; [by apply (mutate_options_elem ind MutateStep) |].
  destruct (mutate_dispatch self rng w ind Hself)
    as (op & g & w0 & Hin & Hobj & Hst & Heq).
  split; [by exists op, g, w0 |].
  rewrite Heq. rewrite <- Hobj in Hself.
  apply mutate_options_elem in Hin. fold n in Hin.
  assert (∀ w', objects w' = objects w0 →
            ∃ ind', objects w' !! self = Some ind'
              ∧ search_space ind' = search_space ind
              ∧ min_length ind' = min_length ind ∧ max_length ind' = max_length ind
              ∧ let n' := Z.of_nat (length (pipeline ind')) in
                (min_length ind <= n → min_length ind <= n')
                ∧ (n <= max_length ind → n' <= max_length ind)
                ∧ (n <= min_length ind → n <= n')
                ∧ (max_length ind <= n → n' <= n)
                ∧ n - 1 <= n' <= n + 1) as Hsame.
  { intros w' Hw'. exists ind. rewrite Hw'. subst n. simpl.
    repeat split; try done; lia. }
  destruct op; simpl.
  - pose proof (mutate_remove_node_spec self (Gen g) w0 ind Hself) as Hspec.
    destruct (_mutate_remove_node self (Gen g) w0) as [r w' | e w']; simpl.
    + destruct Hspec as (_ & _ & idx & Hidx & ->). rewrite lookup_insert_eq.
      eexists. split; [done |]. simpl.
      rewrite length_delete by (apply lookup_lt_is_Some_2; lia).
      subst n. repeat split; try done; lia.
    + apply Hsame, Hspec.
  - pose proof (mutate_add_node_spec self (Gen g) w0 ind Hself) as Hspec.
    destruct (_mutate_add_node self (Gen g) w0) as [r w' | e w']; simpl.
    + destruct Hspec as (_ & new_node & idx & g1 & g2 & _ & Hidx & ->).
      rewrite lookup_insert_eq. eexists. split; [done |]. simpl.
      rewrite length_app. simpl. rewrite length_take, length_drop.
      subst n. repeat split; try done; lia.
    + apply Hsame, Hspec.
  - apply Hsame. by apply (mutate_step_spec self (Gen g) w0 ind).
Qed.

(** *** The exchange loop of swap-random-steps *)

Lemma lengths_lookup w self (n : nat) :
  lengths w !! self = Some n ↔
  ∃ ind, objects w !! self = Some ind ∧ length (pipeline ind) = n.
Proof.
  unfold lengths. rewrite lookup_fmap. destruct (objects w !! self) as [ind |]; simpl.
  - split; [intros [= <-]; eauto | intros (ind' & [= <-] & <-); done].
  - split; [done | intros (ind' & [=] & _)].
Qed.

Lemma getitem_Some self idx ind (st : Step) w :
  objects w !! self = Some ind → pipeline ind !! idx = Some st →
  getitem self idx w = Ret st w.
Proof.
  intros Hself Hidx. unfold getitem. unfold_monad.
  rewrite (get_Some self ind) by done. by rewrite Hidx.
Qed.

Lemma setitem_Some self idx ind (st : Step) w :
  objects w !! self = Some ind → (idx < length (pipeline ind))%nat →
  setitem self idx st w
  = Ret () (set_objects
              (<[self := with_pipeline (<[idx := st]> (pipeline ind)) ind]> (objects w)) w).
Proof.
  intros Hself Hidx. unfold setitem. unfold_monad.
  rewrite (get_Some self ind) by done.
  destruct (decide (idx < length (pipeline ind))%nat); [| done].
  by rewrite (set_pipeline_Some self ind).
Qed.

Lemma lengths_insert w self ind (p : list Step) :
  objects w !! self = Some ind → length p = length (pipeline ind) →
  lengths (set_objects (<[self := with_pipeline p ind]> (objects w)) w) = lengths w.
Proof.
  intros Hself Hlen. unfold lengths. simpl. rewrite fmap_insert. simpl.
  apply insert_id. rewrite lookup_fmap, Hself. simpl. by rewrite Hlen.
Qed.

(** One exchange with both indices in range returns and keeps the length
    of every pipeline, whether or not [self] and [other] are one object. *)
Lemma swap_step_lengths self other (i j ns no : nat) w :
  lengths w !! self = Some ns → lengths w !! other = Some no →
  (i < ns)%nat → (j < no)%nat →
  ∃ w', swap_step self other i j w = Ret () w'
        ∧ lengths w' = lengths w ∧ steps w' = steps w.
Proof.
  intros Hs Ho Hi Hj.
  apply lengths_lookup in Hs as (s & Hs & Hns).
  apply lengths_lookup in Ho as (o & Ho & Hno).
  destruct (lookup_lt_is_Some_2 (pipeline s) i) as [b Hb]; [lia |].
  destruct (lookup_lt_is_Some_2 (pipeline o) j) as [a Ha]; [lia |].
  unfold swap_step. unfold_monad.
  rewrite (getitem_Some other j o a) by done.
  rewrite (getitem_Some self i s b) by done.
  rewrite (setitem_Some self i s) by (done || lia).
  set (w1 := set_objects _ w).
  assert (lengths w1 = lengths w) as Hl1.
  { apply lengths_insert; [done |]. by rewrite length_insert. }
  assert (lengths w1 !! other = Some no) as Ho1.
  { rewrite Hl1. apply lengths_lookup. eauto. }
  apply lengths_lookup in Ho1 as (o1 & Ho1 & Hno1).
  rewrite (setitem_Some other j o1) by (done || lia).
  eexists. split; [done |]. split; [| done].
  rewrite lengths_insert; [done | done |]. by rewrite length_insert.
Qed.

Lemma swap_steps_lengths self other (pairs : list (nat * nat)) (ns no : nat) w :
  lengths w !! self = Some ns → lengths w !! other = Some no →
  Forall (λ ij, (ij.1 < ns)%nat ∧ (ij.2 < no)%nat) pairs →
  ∃ w', swap_steps self other pairs w = Ret () w'
        ∧ lengths w' = lengths w ∧ steps w' = steps w.
Proof.
  intros Hs Ho Hpairs. revert w Hs Ho.
  induction Hpairs as [| [i j] pairs [Hi Hj] _ IH]; intros w Hs Ho.
  - simpl. unfold ret. eauto.
  - simpl in *. unfold_monad.
    destruct (swap_step_lengths self other i j ns no w) as (w1 & -> & Hl1 & Hx1);
      try done.
    destruct (IH w1) as (w2 & -> & Hl2 & Hx2); [by rewrite Hl1 | by rewrite Hl1 |].
    exists w2. split; [done |]. split; congruence.
Qed.

(** For two different individuals the loop computes [exchange]. *)
Lemma swap_steps_exchange self other (pairs : list (nat * nat)) s o w :
  self ≠ other →
  objects w !! self = Some s → objects w !! other = Some o →
  Forall (λ ij, (ij.1 < length (pipeline s))%nat ∧ (ij.2 < length (pipeline o))%nat)
         pairs →
  ∃ w', swap_steps self other pairs w = Ret () w'
        ∧ objects w'
          = <[other := with_pipeline (exchange pairs (pipeline s) (pipeline o)).2 o]>
              (<[self := with_pipeline (exchange pairs (pipeline s) (pipeline o)).1 s]>
                 (objects w)).
Proof.
  intros Hne Hs Ho Hpairs. revert w s o Hs Ho Hpairs.
  induction pairs as [| [i j] pairs IH]; intros w s o Hs Ho Hpairs.
  - simpl. unfold ret. eexists. split; [done |].
    destruct s, o. unfold with_pipeline. simpl.
    rewrite (insert_id (objects w) self) by done.
    by rewrite (insert_id (objects w) other) by done.
  - apply Forall_cons in Hpairs as [[Hi Hj] Hpairs]. simpl in Hi, Hj.
    destruct (lookup_lt_is_Some_2 (pipeline s) i) as [b Hb]; [lia |].
    destruct (lookup_lt_is_Some_2 (pipeline o) j) as [a Ha]; [lia |].
    simpl. rewrite Ha, Hb. unfold swap_step. unfold_monad.
    rewrite (getitem_Some other j o a) by done.
    rewrite (getitem_Some self i s b) by done.
    rewrite (setitem_Some self i s) by (done || lia).
    rewrite (setitem_Some other j o)
      by (simpl; (by rewrite lookup_insert_ne) || lia).
    simpl.
    match goal with |- context [swap_steps self other pairs ?w1] =>
      destruct (IH w1 (with_pipeline (<[i := a]> (pipeline s)) s)
                      (with_pipeline (<[j := b]> (pipeline o)) o))
        as (w2 & -> & Hobj) end.
    + simpl. rewrite lookup_insert_ne by done. by rewrite lookup_insert_eq.
    + simpl. by rewrite lookup_insert_eq.
    + simpl. rewrite !length_insert. done.
    + exists w2. split; [done |]. rewrite Hobj. simpl.
      unfold with_pipeline. simpl.
      rewrite (insert_insert_ne _ other self) by done.
      rewrite insert_insert_eq.
      rewrite (insert_insert_ne _ self other) by done.
      by rewrite insert_insert_eq.
Qed.

(** With distinct indices on either side, every chosen position of one
    pipeline receives what the paired position of the other held before
    the loop, and no other position changes. *)
Lemma exchange_lookup (pairs : list (nat * nat)) (ps po : list Step) :
  NoDup pairs.*1 → NoDup pairs.*2 →
  Forall (λ ij, (ij.1 < length ps)%nat ∧ (ij.2 < length po)%nat) pairs →
  let ps' := (exchange pairs ps po).1 in
  let po' := (exchange pairs ps po).2 in
  length ps' = length ps ∧ length po' = length po
  ∧ (∀ i j, (i, j) ∈ pairs → ps' !! i = po !! j ∧ po' !! j = ps !! i)
  ∧ (∀ i, i ∉ pairs.*1 → ps' !! i = ps !! i)
  ∧ (∀ j, j ∉ pairs.*2 → po' !! j = po !! j).
Proof.
  revert ps po. induction pairs as [| [i j] pairs IH]; intros ps po Hnd1 Hnd2 Hpairs.
  - simpl. split; [done |]. split; [done |]. split; [| done].
    intros i j Hin. by apply elem_of_nil in Hin.
  - apply Forall_cons in Hpairs as [[Hi Hj] Hpairs]. simpl in Hi, Hj.
    rewrite fmap_cons in Hnd1, Hnd2. simpl in Hnd1, Hnd2.
    apply NoDup_cons in Hnd1 as [Hi1 Hnd1]. apply NoDup_cons in Hnd2 as [Hj2 Hnd2].
    destruct (lookup_lt_is_Some_2 ps i) as [b Hb]; [lia |].
    destruct (lookup_lt_is_Some_2 po j) as [a Ha]; [lia |].
    simpl. rewrite Ha, Hb.
    destruct (IH (<[i := a]> ps) (<[j := b]> po)) as (Hl1 & Hl2 & Hin & Hout1 & Hout2);
      [done | done | by rewrite !length_insert |].
    rewrite !length_insert in Hl1, Hl2.
    split; [done |]. split; [done |]. split; [| split].
    + intros i' j' Hel. apply elem_of_cons in Hel as [[= -> ->] | Hel].
      * rewrite Hout1, Hout2 by done.
        rewrite !list_lookup_insert_eq by lia. done.
      * destruct (Hin i' j' Hel) as [H1 H2]. rewrite H1, H2.
        assert (i' ≠ i).
        { intros ->. apply Hi1. apply list_elem_of_fmap. by exists (i, j'). }
        assert (j' ≠ j).
        { intros ->. apply Hj2. apply list_elem_of_fmap. by exists (i', j). }
        by rewrite !list_lookup_insert_ne by done.
    + intros i' Hni. simpl in Hni. apply not_elem_of_cons in Hni as [Hne Hni].
      rewrite Hout1 by done.
      by rewrite list_lookup_insert_ne.
    + intros j' Hnj. simpl in Hnj. apply not_elem_of_cons in Hnj as [Hne Hnj].
      rewrite Hout2 by done.
      by rewrite list_lookup_insert_ne.
Qed.

Lemma n_steps_to_swap_spec (max_steps : Z) (g : G) w :
  1 <= max_steps →
  ∃ n g', n_steps_to_swap max_steps g w = Ret (n, g') w
          ∧ (max_steps = 1 → n = 1)
          ∧ (max_steps ≠ 1 → 1 <= n < max_steps).
Proof.
  intros Hmax. unfold n_steps_to_swap. destruct (Z.eqb_spec max_steps 1) as [-> | Hne].
  - exists 1, g. unfold ret. by repeat split.
  - destruct (integers_ok 1 max_steps g w) as (n & g' & -> & Hn); [lia |].
    exists n, g'. repeat split; [done | lia | lia].
Qed.

Lemma zip_in_range (l1 l2 : list nat) (n1 n2 : nat) :
  Forall (λ i, (i < n1)%nat) l1 → Forall (λ j, (j < n2)%nat) l2 →
  Forall (λ ij, (ij.1 < n1)%nat ∧ (ij.2 < n2)%nat) (zip l1 l2).
Proof.
  intros H1. revert l2. induction H1 as [| i l1 Hi _ IH]; intros l2 H2; [constructor |].
  destruct H2 as [| j l2 Hj H2]; [constructor |]. simpl. constructor; [done |].
  by apply IH.
Qed.

(** C5.  For two individuals with non-empty pipelines, swap-random-steps
    returns true and leaves the length of both pipelines as it was.  With
    [max_steps = max(1, floor(min(len(self), len(other)) / 2))] it takes
    [n = 1] when [max_steps = 1] and otherwise [n] in the half-open
    [[1, max_steps)], draws [n] distinct indices of [other] and,
    independently, [n] distinct indices of [self], and exchanges the Steps
    at the paired positions: for two different individuals each chosen
    position ends up with the Step the paired position of the other
    pipeline held, and every other position keeps its Step. *)
Theorem swap_random_steps_conserves_lengths self other rng w s o :
  objects w !! self = Some s → objects w !! other = Some o →
  pipeline s ≠ [] → pipeline o ≠ [] →
  let ns := length (pipeline s) in
  let no := length (pipeline o) in
  let max_steps := Z.max 1 (Z.min (Z.of_nat ns) (Z.of_nat no) / 2) in
  ∃ (n : Z) (self_idx other_idx : list nat) w' s' o',
    _crossover_swap_random_steps self other rng w = Ret true w'
    ∧ (max_steps = 1 → n = 1) ∧ (max_steps ≠ 1 → 1 <= n < max_steps)
    ∧ Z.of_nat (length self_idx) = n ∧ Z.of_nat (length other_idx) = n
    ∧ NoDup self_idx ∧ NoDup other_idx
    ∧ Forall (λ i, (i < ns)%nat) self_idx ∧ Forall (λ j, (j < no)%nat) other_idx
    ∧ objects w' !! self = Some s' ∧ objects w' !! other = Some o'
    ∧ length (pipeline s') = ns ∧ length (pipeline o') = no
    ∧ lengths w' = lengths w ∧ steps w' = steps w
    ∧ (self ≠ other →
       objects w' = <[other := o']> (<[self := s']> (objects w))
       ∧ (∀ i j, (i, j) ∈ zip self_idx other_idx →
            pipeline s' !! i = pipeline o !! j ∧ pipeline o' !! j = pipeline s !! i)
       ∧ (∀ i, i ∉ self_idx → pipeline s' !! i = pipeline s !! i)
       ∧ (∀ j, j ∉ other_idx → pipeline o' !! j = pipeline o !! j)).
Proof.
  intros Hs Ho Hsne Hone ns no max_steps.
  assert (1 <= ns)%nat as Hns by (subst ns; destruct (pipeline s); [done | simpl; lia]).
  assert (1 <= no)%nat as Hno by (subst no; destruct (pipeline o); [done | simpl; lia]).
  unfold _crossover_swap_random_steps. unfold_monad. simpl.
  rewrite (len_pipeline_Some self s) by done.
  rewrite (len_pipeline_Some other o) by done.
  fold ns no.
  assert (Z.max (half_of_min (Z.of_nat ns) (Z.of_nat no)) 1 = max_steps) as ->.
  { unfold half_of_min, max_steps. rewrite Z.quot_div_nonneg by lia. lia. }
  assert (max_steps <= Z.max 1 (Z.min (Z.of_nat ns) (Z.of_nat no))) as Hle.
  { subst max_steps.
    pose proof (Z.div_le_upper_bound (Z.min (Z.of_nat ns) (Z.of_nat no)) 2
                  (Z.min (Z.of_nat ns) (Z.of_nat no))). lia. }
  match goal with |- context [n_steps_to_swap max_steps ?g ?w0] =>
    destruct (n_steps_to_swap_spec max_steps g w0) as (n & g1 & -> & Hn1 & Hn2);
    [lia |]; set (w0' := w0) end.
  assert (1 <= n <= Z.min (Z.of_nat ns) (Z.of_nat no)) as Hn.
  { destruct (decide (max_steps = 1)) as [H1 | H1];
      [rewrite (Hn1 H1) | specialize (Hn2 H1)]; lia. }
  rewrite !Nat2Z.id.
  pose proof (choice_no_replace_spec no n g1 w0') as Hc1.
  destruct (choice_no_replace no n g1 w0') as [[other_idx g2] w1 | e w1];
    [| destruct Hc1 as [_ [? | ?]]; lia].
  destruct Hc1 as (-> & Hlo & Hndo & Hro).
  pose proof (choice_no_replace_spec ns n g2 w0') as Hc2.
  destruct (choice_no_replace ns n g2 w0') as [[self_idx g3] w1 | e w1];
    [| destruct Hc2 as [_ [? | ?]]; lia].
  destruct Hc2 as (-> & Hls & Hnds & Hrs).
  pose proof (zip_in_range self_idx other_idx ns no Hrs Hro) as Hzip.
  destruct (swap_steps_lengths self other (zip self_idx other_idx) ns no w0')
    as (w' & Hswap & Hlen & Hsteps).
  { apply lengths_lookup. by exists s. }
  { apply lengths_lookup. by exists o. }
  { done. }
  rewrite Hswap.
  assert (lengths w' !! self = Some ns) as Hs'.
  { rewrite Hlen. apply lengths_lookup. by exists s. }
  assert (lengths w' !! other = Some no) as Ho'.
  { rewrite Hlen. apply lengths_lookup. by exists o. }
  apply lengths_lookup in Hs' as (s' & Hs' & Hns').
  apply lengths_lookup in Ho' as (o' & Ho' & Hno').
  exists n, self_idx, other_idx, w', s', o'.
  do 15 (split; [done |]).
  intros Hne.
  destruct (swap_steps_exchange self other (zip self_idx other_idx) s o w0')
    as (w'' & Hswap' & Hobj); try done.
  rewrite Hswap in Hswap'. injection Hswap' as <-.
  rewrite Hobj in Hs', Ho'.
  rewrite lookup_insert_ne, lookup_insert_eq in Hs' by done.
  rewrite lookup_insert_eq in Ho'.
  injection Hs' as <-. injection Ho' as <-.
  split.
  { rewrite Hobj. simpl. done. }
  assert (length self_idx = length other_idx) as Heqlen by lia.
  destruct (exchange_lookup (zip self_idx other_idx) (pipeline s) (pipeline o))
    as (_ & _ & Hin & Hout1 & Hout2).
  { by rewrite fst_zip by lia. }
  { by rewrite snd_zip by lia. }
  { done. }
  simpl. split; [done |]. split.
  - intros i Hi. apply Hout1. by rewrite fst_zip by lia.
  - intros j Hj. apply Hout2. by rewrite snd_zip by lia.
Qed.

(** *** Inner-step crossover *)

Lemma inner_step_loop_app self other (l1 l2 : list nat) (acc : bool * G) w :
  inner_step_loop self other (l1 ++ l2) acc w
  = (acc' ← inner_step_loop self other l1 acc; inner_step_loop self other l2 acc') w.
Proof.
  revert acc w. induction l1 as [| idx l1 IH]; intros acc w; [done |].
  simpl. unfold_monad.
  destruct (inner_step_at self other idx acc w) as [acc1 w1 | e w1]; [| done].
  apply IH.
Qed.

(** One pass of the loop: the individuals are untouched, and the Steps
    change by at most one call of [Step.crossover] at this index. *)
Lemma inner_step_at_spec self other (idx : nat) (acc : bool * G) w s o :
  objects w !! self = Some s → objects w !! other = Some o →
  let out := inner_step_at self other idx acc w in
  objects (final_state out) = objects w
  ∧ rtc (crossover_at_matching_index (pipeline s) (pipeline o))
        (steps w) (steps (final_state out)).
Proof.
  intros Hs Ho. destruct acc as [ok g]. unfold inner_step_at.
  unfold random_lt_half. unfold_monad. destruct (coin g) as [[|] g1]; [| done].
  unfold getitem. unfold_monad. rewrite (get_Some self s) by done.
  destruct (pipeline s !! idx) as [a |] eqn:Ha; [| done].
  rewrite (get_Some other o) by done.
  destruct (pipeline o !! idx) as [b |] eqn:Hb; [| done].
  unfold delegate. simpl.
  pose proof (matching_call (pipeline s) (pipeline o) idx a b g1 (steps w) Ha Hb) as Hcall.
  destruct (step_crossover a b g1 (steps w)) as [[r g2] x | e x]; simpl in *;
    (split; [done | by apply rtc_once]).
Qed.

Lemma inner_step_loop_spec self other (idxs : list nat) (acc : bool * G) w s o :
  objects w !! self = Some s → objects w !! other = Some o →
  let out := inner_step_loop self other idxs acc w in
  objects (final_state out) = objects w
  ∧ rtc (crossover_at_matching_index (pipeline s) (pipeline o))
        (steps w) (steps (final_state out)).
Proof.
  revert acc w. induction idxs as [| idx idxs IH]; intros acc w Hs Ho; [done |].
  simpl. unfold_monad.
  destruct (inner_step_at_spec self other idx acc w s o Hs Ho) as [Hobj Hrtc].
  destruct (inner_step_at self other idx acc w) as [acc1 w1 | e w1]; simpl in *;
    [| done].
  destruct (IH acc1 w1) as [Hobj' Hrtc']; [by rewrite Hobj | by rewrite Hobj |].
  split; [congruence | by etrans].
Qed.

(** While the indices exist in both pipelines and no Step raises, the
    loop returns. *)
Lemma inner_step_loop_total self other (idxs : list nat) (acc : bool * G) w s o
      (Inv : X → Prop) :
  crossover_returns Inv (pipeline s) (pipeline o) →
  Inv (steps w) →
  objects w !! self = Some s → objects w !! other = Some o →
  Forall (λ i, (i < length (pipeline s))%nat ∧ (i < length (pipeline o))%nat) idxs →
  ∃ acc' w', inner_step_loop self other idxs acc w = Ret acc' w'.
Proof.
  intros Htot Hinv Hs Ho Hidx. revert acc w Hinv Hs Ho.
  induction Hidx as [| idx idxs [Hi Hj] _ IH]; intros acc w Hinv Hs Ho.
  - simpl. unfold ret. eauto.
  - simpl. unfold_monad.
    assert (∃ acc1 w1, inner_step_at self other idx acc w = Ret acc1 w1
                       ∧ objects w1 = objects w ∧ Inv (steps w1))
      as (acc1 & w1 & Heq & Hobj & Hinv1).
    { destruct acc as [ok g]. unfold inner_step_at.
      unfold random_lt_half. unfold_monad.
      destruct (coin g) as [[|] g1]; [| eauto].
      destruct (lookup_lt_is_Some_2 (pipeline s) idx Hi) as [a Ha].
      destruct (lookup_lt_is_Some_2 (pipeline o) idx Hj) as [b Hb].
      rewrite (getitem_Some self idx s a) by done.
      rewrite (getitem_Some other idx o b) by done.
      unfold delegate.
      destruct (Htot a b g1 (steps w)) as (r & g2 & x & -> & Hx);
        [by eapply list_elem_of_lookup_2 | by eapply list_elem_of_lookup_2 | done |].
      eauto. }
    rewrite Heq. apply IH; [done | by rewrite Hobj | by rewrite Hobj].
Qed.

(** Past the end of [other.pipeline] nothing is delegated: the loop
    raises at the first index whose coin falls on heads, and returns what
    it had when there is none. *)
Lemma inner_step_loop_beyond self other (idxs : list nat) (ok : bool) (g : G) w s o :
  objects w !! self = Some s → objects w !! other = Some o →
  Forall (λ i, (length (pipeline o) ≤ i < length (pipeline s))%nat) idxs →
  match first_heads idxs g with
  | Some i => inner_step_loop self other idxs (ok, g) w = Raise (IndexError (Z.of_nat i)) w
  | None => ∃ g', inner_step_loop self other idxs (ok, g) w = Ret (ok, g') w
  end.
Proof.
  intros Hs Ho Hidx. revert g.
  induction Hidx as [| idx idxs [Hi Hj] _ IH]; intros g.
  - simpl. unfold ret. eauto.
  - simpl. unfold_monad. unfold random_lt_half. unfold_monad.
    destruct (coin g) as [[|] g1].
    + destruct (lookup_lt_is_Some_2 (pipeline s) idx Hj) as [a Ha].
      rewrite (getitem_Some self idx s a) by done.
      unfold getitem. unfold_monad. rewrite (get_Some other o) by done.
      by rewrite (lookup_ge_None_2 (pipeline o) idx) by lia.
    + apply IH.
Qed.

Lemma inner_step_unfold self other rng w s :
  objects w !! self = Some s →
  ∃ g0 w0,
    objects w0 = objects w ∧ steps w0 = steps w
    ∧ _crossover_inner_step self other rng w
      = match inner_step_loop self other (seq 0 (length (pipeline s))) (false, g0) w0 with
        | Ret (ok, _) w' => Ret ok w'
        | Raise e w' => Raise e w'
        end.
Proof.
  intros Hs. unfold _crossover_inner_step. unfold_monad. simpl.
  rewrite (len_pipeline_Some self s) by done. rewrite Nat2Z.id.
  exists (seed_rng (urandom w (reads w))),
    {| urandom := urandom w; reads := S (reads w);
       steps := steps w; objects := objects w |}.
  split; [done |]. split; [done |].
  by destruct (inner_step_loop _ _ _ _ _) as [[ok g1] w1 | e w1].
Qed.

(** C10.  Inner-step crossover never changes the composite structure:
    whatever it does, every individual afterwards has the pipeline it had
    (the same Step objects at the same positions, so also the same
    length); the Steps' own state changes only through calls of
    [Step.crossover] between the Steps at one index of the two pipelines;
    and it returns whenever [other.pipeline] is at least as long as
    [self.pipeline] and the Steps' crossover does not raise. *)
Theorem inner_step_keeps_structure self other rng w s o :
  objects w !! self = Some s → objects w !! other = Some o →
  let out := _crossover_inner_step self other rng w in
  objects (final_state out) = objects w
  ∧ rtc (crossover_at_matching_index (pipeline s) (pipeline o))
        (steps w) (steps (final_state out))
  ∧ ((length (pipeline s) ≤ length (pipeline o))%nat →
     ∀ Inv : X → Prop,
       Inv (steps w) → crossover_returns Inv (pipeline s) (pipeline o) →
       ∃ ok w', out = Ret ok w').
Proof.
  intros Hs Ho out. subst out.
  destruct (inner_step_unfold self other rng w s Hs) as (g0 & w0 & Hobj & Hst & ->).
  rewrite <- Hobj in Hs, Ho.
  destruct (inner_step_loop_spec self other (seq 0 (length (pipeline s))) (false, g0)
              w0 s o Hs Ho) as [Hobj' Hrtc].
  split; [| split].
  - destruct (inner_step_loop _ _ _ _ w0) as [[ok g1] w1 | e w1]; simpl in *; congruence.
  - rewrite <- Hst.
    by destruct (inner_step_loop _ _ _ _ w0) as [[ok g1] w1 | e w1].
  - intros Hlen Inv Hinv Htot. rewrite <- Hst in Hinv.
    destruct (inner_step_loop_total self other (seq 0 (length (pipeline s))) (false, g0)
                w0 s o Inv Htot Hinv Hs Ho) as ([ok g1] & w1 & ->); [| eauto].
    apply Forall_forall. intros i Hi. apply elem_of_seq in Hi. lia.
Qed.

(** C6, amended.  When [other.pipeline] is strictly shorter than
    [self.pipeline], inner-step first runs the indices both pipelines
    have; if that raises, so does the call.  Otherwise it flips one coin
    for each further index of [self.pipeline]: it fails with an
    out-of-range error at the first such index whose coin falls on heads,
    and returns, having skipped them all, when every coin falls on
    tails. *)
Theorem inner_step_shorter_other self other rng w s o :
  objects w !! self = Some s → objects w !! other = Some o →
  (length (pipeline o) < length (pipeline s))%nat →
  let ns := length (pipeline s) in
  let no := length (pipeline o) in
  ∃ g0 w0,
    objects w0 = objects w ∧ steps w0 = steps w
    ∧ match inner_step_loop self other (seq 0 no) (false, g0) w0 with
      | Ret (ok, g1) w1 =>
          _crossover_inner_step self other rng w
          = match first_heads (seq no (ns - no)) g1 with
            | Some i => Raise (IndexError (Z.of_nat i)) w1
            | None => Ret ok w1
            end
          ∧ ∀ i, first_heads (seq no (ns - no)) g1 = Some i → (no ≤ i < ns)%nat
      | Raise e w1 => _crossover_inner_step self other rng w = Raise e w1
      end.
Proof.
  intros Hs Ho Hlt ns no.
  destruct (inner_step_unfold self other rng w s Hs) as (g0 & w0 & Hobj & Hst & ->).
  exists g0, w0. split; [done |]. split; [done |].
  rewrite <- Hobj in Hs, Ho. fold ns.
  replace (seq 0 ns) with (seq 0 no ++ seq no (ns - no))
    by (rewrite <- seq_app; f_equal; lia).
  rewrite inner_step_loop_app. unfold_monad.
  pose proof (inner_step_loop_spec self other (seq 0 no) (false, g0) w0 s o Hs Ho)
    as [Hobj1 _].
  destruct (inner_step_loop self other (seq 0 no) (false, g0) w0)
    as [[ok g1] w1 | e w1]; [| done].
  simpl in Hobj1. rewrite <- Hobj1 in Hs, Ho.
  assert (Forall (λ i, (no ≤ i < ns)%nat) (seq no (ns - no))) as Hrange.
  { apply Forall_forall. intros i Hi. apply elem_of_seq in Hi. lia. }
  pose proof (inner_step_loop_beyond self other (seq no (ns - no)) ok g1 w1 s o
                Hs Ho Hrange) as Hb.
  split.
  - destruct (first_heads (seq no (ns - no)) g1) as [i |].
    + by rewrite Hb.
    + destruct Hb as (g' & ->). done.
  - clear Hb. revert g1. induction Hrange as [| i l Hi _ IH]; intros g1 j; [done |].
    simpl. destruct (coin g1) as [[|] g2]; [by intros [= <-] | apply IH].
Qed.

(** *** The top-level crossover *)

Lemma crossover_unfold self other rng w :
  ∃ first second g w0,
    ((first, second) = (SwapRandomSteps, InnerStep)
     ∨ (first, second) = (InnerStep, SwapRandomSteps))
    ∧ objects w0 = objects w ∧ steps w0 = steps w
    ∧ default_rng NoRng w = Ret (seed_rng (urandom w (reads w))) w0
    ∧ shuffle [SwapRandomSteps; InnerStep] (seed_rng (urandom w (reads w))) w0
      = Ret ([first; second], g) w0
    ∧ _crossover self other rng w = try_in_order first second self other (Gen g) w0.
Proof.
  unfold _crossover. unfold_monad. simpl default_rng.
  set (w0 := {| urandom := urandom w; reads := S (reads w);
                steps := steps w; objects := objects w |}).
  set (g0 := seed_rng (urandom w (reads w))).
  destruct (shuffle_pair SwapRandomSteps InnerStep g0 w0) as (g & [Hsh | Hsh]).
  - exists SwapRandomSteps, InnerStep, g, w0. rewrite Hsh.
    split; [by left |]. do 4 (split; [done |]).
    unfold try_in_order. simpl. unfold_monad.
    destruct (_crossover_swap_random_steps self other (Gen g) w0) as [[|] w1 | e w1];
      [done | | done].
    by destruct (_crossover_inner_step self other (Gen g) w1) as [[|] w2 | e w2].
  - exists InnerStep, SwapRandomSteps, g, w0. rewrite Hsh.
    split; [by right |]. do 4 (split; [done |]).
    unfold try_in_order. simpl. unfold_monad.
    destruct (_crossover_inner_step self other (Gen g) w0) as [[|] w1 | e w1];
      [done | | done].
    by destruct (_crossover_swap_random_steps self other (Gen g) w1) as [[|] w2 | e w2].
Qed.

(** C4.  The top-level crossover shuffles the list of swap-random-steps
    and inner-step and tries the two in the shuffled order: when the first
    reports success it returns true in the state the first left, the
    second not having run; otherwise its result is the second's; so it
    returns false only when both returned false. *)
Theorem crossover_tries_in_shuffled_order self other rng w :
  ∃ first second g w0,
    ((first, second) = (SwapRandomSteps, InnerStep)
     ∨ (first, second) = (InnerStep, SwapRandomSteps))
    ∧ objects w0 = objects w ∧ steps w0 = steps w
    ∧ shuffle [SwapRandomSteps; InnerStep] (seed_rng (urandom w (reads w))) w0
      = Ret ([first; second], g) w0
    ∧ _crossover self other rng w = try_in_order first second self other (Gen g) w0
    ∧ (∀ w1, call_cx_func first self other (Gen g) w0 = Ret true w1 →
         _crossover self other rng w = Ret true w1)
    ∧ (∀ w1, call_cx_func first self other (Gen g) w0 = Ret false w1 →
         _crossover self other rng w
         = call_cx_func second self other (Gen g) w1)
    ∧ (∀ w2, _crossover self other rng w = Ret false w2 →
         ∃ w1, call_cx_func first self other (Gen g) w0 = Ret false w1
               ∧ call_cx_func second self other (Gen g) w1 = Ret false w2).
Proof.
  destruct (crossover_unfold self other rng w)
    as (first & second & g & w0 & Hord & Hobj & Hst & _ & Hsh & Heq).
  exists first, second, g, w0. do 5 (split; [done |]).
  rewrite Heq. unfold try_in_order. split; [| split].
  - by intros w1 ->.
  - intros w1 ->.
    by destruct (call_cx_func second self other (Gen g) w1) as [ok w2 | e w2].
  - intros w2.
    destruct (call_cx_func first self other (Gen g) w0) as [[|] w1 | e w1];
      [done | | done].
    destruct (call_cx_func second self other (Gen g) w1) as [ok w2' | e w2'] eqn:Hsnd;
      [| done].
    intros [= Hok Hw]. subst. by exists w1.
Qed.

(** *** Failing calls *)

Lemma keeps_getitem self idx : keeps unchanged (getitem self idx).
Proof. apply keeps_stateless; [apply _ |]. apply getitem_stateless. Qed.

Lemma keeps_inner_step_at self other idx (acc : bool * G) :
  keeps unchanged (inner_step_at self other idx acc).
Proof.
  destruct acc as [ok g]. unfold inner_step_at.
  apply keeps_bind; [apply _ | by apply keeps_stateless; [apply _ |] |].
  intros [[|] g1]; [| by apply keeps_ret; apply _].
  apply keeps_bind; [apply _ | apply keeps_getitem |]. intros a.
  apply keeps_bind; [apply _ | apply keeps_getitem |]. intros b.
  apply keeps_bind; [apply _ | apply keeps_delegate |]. intros [r g2].
  apply keeps_ret; apply _.
Qed.

Lemma keeps_inner_step_loop self other idxs (acc : bool * G) :
  keeps unchanged (inner_step_loop self other idxs acc).
Proof.
  revert acc. induction idxs as [| idx idxs IH]; intros acc.
  - apply keeps_ret; apply _.
  - simpl. apply keeps_bind; [apply _ | apply keeps_inner_step_at | apply IH].
Qed.

Lemma keeps_len_pipeline self : keeps unchanged (len_pipeline self).
Proof.
  apply keeps_stateless; [apply _ |]. intros w. unfold len_pipeline. unfold_monad.
  pose proof (get_stateless self w). by destruct (get self w).
Qed.

(** Inner-step leaves every individual as it was, also when the store
    lacks one of the two. *)
Lemma keeps_crossover_inner_step self other rng :
  keeps unchanged (_crossover_inner_step self other rng).
Proof.
  unfold _crossover_inner_step.
  apply keeps_bind; [apply _ | apply keeps_default_rng |]. intros g.
  apply keeps_bind; [apply _ | apply keeps_len_pipeline |]. intros n.
  apply keeps_bind; [apply _ | apply keeps_inner_step_loop |]. intros [ok g1].
  apply keeps_ret; apply _.
Qed.

(** Swap-random-steps returns nothing but true, and when it raises it has
    exchanged nothing. *)
Lemma swap_random_steps_outcome self other rng w :
  match _crossover_swap_random_steps self other rng w with
  | Ret ok w' => ok = true ∧ lengths w' = lengths w
  | Raise _ w' => objects w' = objects w
  end.
Proof.
  unfold _crossover_swap_random_steps. unfold_monad. simpl default_rng.
  set (w0 := {| urandom := urandom w; reads := S (reads w);
                steps := steps w; objects := objects w |}).
  destruct (objects w !! self) as [s |] eqn:Hs;
    [| by rewrite (len_pipeline_None self w0)].
  rewrite (len_pipeline_Some self s w0) by done.
  destruct (objects w !! other) as [o |] eqn:Ho;
    [| by rewrite (len_pipeline_None other w0)].
  rewrite (len_pipeline_Some other o w0) by done.
  match goal with |- context [n_steps_to_swap ?m ?g ?w1] =>
    destruct (n_steps_to_swap_spec m g w1) as (n & g1 & -> & _); [lia |] end.
  rewrite !Nat2Z.id.
  match goal with |- context [choice_no_replace ?a ?b ?c ?d] =>
    pose proof (choice_no_replace_spec a b c d) as Hc1;
    destruct (choice_no_replace a b c d) as [[other_idx g2] w1 | e w1] end;
    [| by destruct Hc1 as [-> _]].
  destruct Hc1 as (-> & _ & _ & Hro).
  match goal with |- context [choice_no_replace ?a ?b ?c ?d] =>
    pose proof (choice_no_replace_spec a b c d) as Hc2;
    destruct (choice_no_replace a b c d) as [[self_idx g3] w1 | e w1] end;
    [| by destruct Hc2 as [-> _]].
  destruct Hc2 as (-> & _ & _ & Hrs).
  destruct (swap_steps_lengths self other (zip self_idx other_idx)
              (length (pipeline s)) (length (pipeline o)) w0)
    as (w' & -> & Hlen & _).
  { apply lengths_lookup. by exists s. }
  { apply lengths_lookup. by exists o. }
  { by apply zip_in_range. }
  done.
Qed.

Lemma mutate_keeps_on_raise self rng : keeps_on_raise unchanged (mutate self rng).
Proof.
  intros w e w' Heq. unfold same_objects.
  destruct (objects w !! self) as [ind |] eqn:Hself.
  - destruct (mutate_dispatch self rng w ind Hself)
      as (op & g & w0 & _ & Hobj & _ & Hm).
    rewrite Hm in Heq. rewrite <- Hobj in Hself |- *. destruct op; simpl in Heq.
    + pose proof (mutate_remove_node_spec self (Gen g) w0 ind Hself) as Hspec.
      rewrite Heq in Hspec. tauto.
    + pose proof (mutate_add_node_spec self (Gen g) w0 ind Hself) as Hspec.
      rewrite Heq in Hspec. tauto.
    + pose proof (mutate_step_spec self (Gen g) w0 ind Hself) as [Hspec _].
      by rewrite Heq in Hspec.
  - unfold mutate in Heq. unfold_monad. simpl in Heq.
    rewrite get_None in Heq by done. by injection Heq as <- <-.
Qed.

Lemma crossover_keeps_on_raise self other rng :
  keeps_on_raise unchanged (_crossover self other rng).
Proof.
  intros w e w' Heq. unfold same_objects.
  destruct (crossover_unfold self other rng w)
    as (first & second & g & w0 & Hord & Hobj & _ & _ & _ & Hc).
  rewrite Hc in Heq. unfold try_in_order in Heq. rewrite <- Hobj.
  destruct Hord as [[= -> ->] | [= -> ->]]; simpl in Heq.
  - pose proof (swap_random_steps_outcome self other (Gen g) w0) as Hsw.
    destruct (_crossover_swap_random_steps self other (Gen g) w0) as [[|] w1 | e1 w1].
    + done.
    + by destruct Hsw.
    + by injection Heq as <- <-.
  - pose proof (keeps_crossover_inner_step self other (Gen g) w0) as Hin.
    destruct (_crossover_inner_step self other (Gen g) w0) as [[|] w1 | e1 w1];
      simpl in Hin; unfold same_objects in Hin.
    + done.
    + pose proof (swap_random_steps_outcome self other (Gen g) w1) as Hsw.
      destruct (_crossover_swap_random_steps self other (Gen g) w1) as [ok w2 | e2 w2];
        [done |].
      injection Heq as <- <-. congruence.
    + by injection Heq as <- <-.
Qed.

(** Crossover, returning or raising, keeps the length of every pipeline:
    with C3 this makes [min_length <= len(pipeline)] an invariant of the
    individuals that [generate] builds. *)
Lemma crossover_keeps_lengths self other rng w :
  lengths (final_state (_crossover self other rng w)) = lengths w.
Proof.
  assert (∀ w1 w2 : @World SS Step X,
            objects w2 = objects w1 → lengths w2 = lengths w1) as Hl
    by (intros w1 w2 Hw; unfold lengths; by rewrite Hw).
  destruct (crossover_unfold self other rng w)
    as (first & second & g & w0 & Hord & Hobj & _ & _ & _ & ->).
  rewrite <- (Hl w w0 Hobj). unfold try_in_order.
  pose proof (swap_random_steps_outcome self other (Gen g)) as Hsw.
  pose proof (keeps_crossover_inner_step self other (Gen g)) as Hin.
  destruct Hord as [[= -> ->] | [= -> ->]]; simpl.
  - specialize (Hsw w0).
    destruct (_crossover_swap_random_steps self other (Gen g) w0) as [[|] w1 | e1 w1];
      simpl; [tauto | by destruct Hsw | by apply Hl].
  - specialize (Hin w0).
    destruct (_crossover_inner_step self other (Gen g) w0) as [[|] w1 | e1 w1];
      simpl in *; [by apply Hl | | by apply Hl].
    specialize (Hsw w1). rewrite <- (Hl w0 w1 Hin).
    destruct (_crossover_swap_random_steps self other (Gen g) w1) as [ok w2 | e2 w2];
      simpl; [tauto | by apply Hl].
Qed.

(** C7, amended.  A mutate or crossover call that fails with an error
    leaves every individual with the pipeline it had before the call, the
    same Step objects at the same positions: no exchange of Steps is left
    half done. *)
Theorem failed_call_keeps_pipelines self other rng w e w' :
  mutate self rng w = Raise e w' ∨ _crossover self other rng w = Raise e w' →
  objects w' = objects w.
Proof.
  intros [Hm | Hc].
  - by apply (mutate_keeps_on_raise self rng w e w').
  - by apply (crossover_keeps_on_raise self other rng w e w').
Qed.

(** *** Identity *)

Lemma unique_id_of_inj (x x' : X) (p q : list Step) :
  unique_id_of x p = unique_id_of x' q ↔ step_ids x p = step_ids x' q.
Proof.
  unfold unique_id_of. split; [| by intros ->].
  intros [= Heq]. revert Heq. generalize (step_ids x p), (step_ids x' q).
  induction l as [| k l IH]; intros [| k' l'] Heq; try done.
  simpl in Heq. injection Heq as -> Heq. f_equal. by apply IH.
Qed.

Lemma unique_id_Some self ind w :
  objects w !! self = Some ind →
  unique_id self w = Ret (unique_id_of (steps w) (pipeline ind)) w.
Proof. intros Hs. unfold unique_id. unfold_monad. by rewrite (get_Some self ind). Qed.

(** C8, amended.  [unique_id()] reads the state and leaves it alone; the
    key is the discriminator token followed by each Step's [unique_id] in
    pipeline order, so two pipelines have equal keys exactly when their
    sequences of Step identities are equal.  Hence calling it twice gives
    equal keys, adding or removing a Step changes the key, and exchanging
    two Steps changes the key when their identities differ. *)
Theorem unique_id_follows_step_ids (x x' : X) (p q : list Step) :
  unique_id_of x p
  = MkTupleIndex (Token "DynamicLinearPipeline" :: (StepKey <$> step_ids x p))
  ∧ (unique_id_of x p = unique_id_of x' q ↔ step_ids x p = step_ids x' q)
  ∧ (length p ≠ length q → unique_id_of x p ≠ unique_id_of x' q)
  ∧ (∀ i j a b,
       p !! i = Some a → p !! j = Some b →
       step_unique_id a x ≠ step_unique_id b x →
       unique_id_of x (<[i := b]> (<[j := a]> p)) ≠ unique_id_of x p)
  ∧ (∀ self w ind,
       objects w !! self = Some ind →
       unique_id self w = Ret (unique_id_of (steps w) (pipeline ind)) w
       ∧ (k1 ← unique_id self; k2 ← unique_id self; ret (k1, k2)) w
         = Ret (unique_id_of (steps w) (pipeline ind),
                unique_id_of (steps w) (pipeline ind)) w).
Proof.
  split; [done |]. split; [apply unique_id_of_inj |]. split; [| split].
  - intros Hlen Heq. apply unique_id_of_inj in Heq. apply Hlen.
    apply (f_equal length) in Heq. unfold step_ids in Heq.
    by rewrite !length_fmap in Heq.
  - intros i j a b Ha Hb Hne Heq. apply unique_id_of_inj in Heq.
    apply (f_equal (λ l, l !! i)) in Heq. unfold step_ids in Heq.
    rewrite !list_lookup_fmap in Heq.
    rewrite list_lookup_insert_eq in Heq.
    + rewrite Ha in Heq. simpl in Heq. injection Heq as Heq. by apply Hne.
    + rewrite length_insert. by eapply lookup_lt_Some.
  - intros self w ind Hs. split; [by apply unique_id_Some |].
    unfold_monad. by rewrite !(unique_id_Some self ind w Hs).
Qed.

(** *** The [rng] argument *)

(** No method reads the generator it is given: each seeds a new one from
    the operating system. *)
Lemma rng_argument_ignored (rng rng' : RngArg G) :
  (∀ ss a b w, _generate_pipeline ss a b rng w = _generate_pipeline ss a b rng' w)
  ∧ (∀ self w, mutate self rng w = mutate self rng' w)
  ∧ (∀ self other w, _crossover self other rng w = _crossover self other rng' w)
  ∧ (∀ self other w, _crossover_swap_random_steps self other rng w
                     = _crossover_swap_random_steps self other rng' w)
  ∧ (∀ self other w, _crossover_inner_step self other rng w
                     = _crossover_inner_step self other rng' w).
Proof. by repeat split. Qed.
End Claims.

(** ** The example scenarios, on the stub *)

Lemma stub_generate_total (ss : string) : generate_total ss.
Proof.
  intros g x. simpl. unfold Stub.stub_generate.
  destruct (uint64 g) as [r g']. eauto.
Qed.

Lemma stub_crossover_total_on (x : list Stub.Marker) (a b : nat) (g : N) :
  (a < length x)%nat → (b < length x)%nat →
  ∃ r x', Stub.stub_crossover a b g x = Ret (r, g) x' ∧ length x' = length x.
Proof.
  intros Ha Hb. unfold Stub.stub_crossover.
  destruct (lookup_lt_is_Some_2 x a Ha) as [m ->].
  destruct (lookup_lt_is_Some_2 x b Hb) as [o ->].
  eexists _, _. split; [done |]. by rewrite length_insert.
Qed.


(** C2.  Two runs of generate, generate, mutate, crossover with the seed 42
    given to every call, in two worlds that differ in nothing but the
    entropy of the operating system, end with different pipelines. *)
Theorem same_seed_runs_differ :
  returned (Stub.run_with_seed 42 (Stub.world [1; 0; 0; 0; 0; 0]%N [] []))
  = Some (Some [2%nat], Some [1%nat], true)
  ∧ returned (Stub.run_with_seed 42 (Stub.world [1; 2; 3; 1; 2; 7]%N [] []))
    = Some (Some [2%nat], Some [0; 3; 4]%nat, true).
Proof. split; vm_compute; reflexivity. Qed.

(** Scenario 2: [[A, B, C]] with [max_length = 3] is offered remove and
    step, not add. *)
Lemma mutate_respects_bounds_witness :
  objects (Stub.world_abc [0%N]) !! 0%nat = Some Stub.abc
  ∧ (AddNode ∈ mutate_options Stub.abc ↔ 3 < 3)
  ∧ mutate_options Stub.abc = [RemoveNode; MutateStep].
Proof.
  assert (objects (Stub.world_abc [0%N]) !! 0%nat = Some Stub.abc) as H
    by (vm_compute; reflexivity).
  split; [exact H |]. split; [| reflexivity].
  apply (mutate_respects_bounds 0%nat NoRng (Stub.world_abc [0%N]) Stub.abc H).
Defined.

Lemma crossover_tries_in_shuffled_order_witness :
  ∃ first second g w0,
    _crossover 0%nat 1%nat NoRng (Stub.world_swap [0%N]) =
    try_in_order first second 0%nat 1%nat (Gen g) w0.
Proof.
  destruct (crossover_tries_in_shuffled_order 0%nat 1%nat NoRng (Stub.world_swap [0%N]))
    as (first & second & g & w0 & _ & _ & _ & _ & H & _).
  exists first, second, g, w0. exact H.
Defined.

(** Scenario 3: [X = [A, B, C, D]] and [Y = [E, F]] exchange one Step and
    keep their lengths 4 and 2. *)
Lemma swap_random_steps_conserves_lengths_witness :
  objects (Stub.world_swap [0%N]) !! 0%nat = Some Stub.abcd
  ∧ objects (Stub.world_swap [0%N]) !! 1%nat = Some Stub.ef
  ∧ ∃ w', _crossover_swap_random_steps 0%nat 1%nat NoRng (Stub.world_swap [0%N])
          = Ret true w'
          ∧ lengths w' = lengths (Stub.world_swap [0%N]).
Proof.
  assert (objects (Stub.world_swap [0%N]) !! 0%nat = Some Stub.abcd) as Hs
    by (vm_compute; reflexivity).
  assert (objects (Stub.world_swap [0%N]) !! 1%nat = Some Stub.ef) as Ho
    by (vm_compute; reflexivity).
  split; [exact Hs |]. split; [exact Ho |].
  assert (pipeline Stub.abcd ≠ []) as Hsne by (simpl; discriminate).
  assert (pipeline Stub.ef ≠ []) as Hone by (simpl; discriminate).
  destruct (swap_random_steps_conserves_lengths 0%nat 1%nat NoRng
              (Stub.world_swap [0%N]) Stub.abcd Stub.ef Hs Ho Hsne Hone)
    as (n & si & oi & w' & s' & o' & Heq & _ & _ & _ & _ & _ & _ & _ & _ & _ & _ & _ & _
        & Hlen & _).
  exists w'. split; [exact Heq | exact Hlen].
Defined.

(** C6.  [self] has three Steps and [other] two; the coin of index 2 falls
    on tails, and inner-step returns instead of failing. *)
Lemma inner_step_mismatch_can_return :
  Stub.pipeline_at 0 (Stub.world_mismatch [Stub.heads_heads_tails]) = Some [0; 1; 2]%nat
  ∧ Stub.pipeline_at 1 (Stub.world_mismatch [Stub.heads_heads_tails]) = Some [3; 4]%nat
  ∧ returned (_crossover_inner_step 0%nat 1%nat NoRng
                (Stub.world_mismatch [Stub.heads_heads_tails])) = Some true
  ∧ raised (_crossover_inner_step 0%nat 1%nat NoRng
              (Stub.world_mismatch [Stub.heads_heads_tails])) = None.
Proof. repeat split; vm_compute; reflexivity. Qed.

Lemma inner_step_shorter_other_witness :
  objects (Stub.world_mismatch [0%N]) !! 0%nat = Some Stub.abc
  ∧ objects (Stub.world_mismatch [0%N]) !! 1%nat = Some Stub.de
  ∧ (length (pipeline Stub.de) < length (pipeline Stub.abc))%nat
  ∧ ∃ g0 w0,
      objects w0 = objects (Stub.world_mismatch [0%N])
      ∧ steps w0 = steps (Stub.world_mismatch [0%N])
      ∧ match inner_step_loop 0%nat 1%nat (seq 0 2) (false, g0) w0 with
        | Ret (ok, g1) w1 =>
            _crossover_inner_step 0%nat 1%nat NoRng (Stub.world_mismatch [0%N])
            = match first_heads (seq 2 (3 - 2)) g1 with
              | Some i => Raise (IndexError (Z.of_nat i)) w1
              | None => Ret ok w1
              end
            ∧ ∀ i, first_heads (seq 2 (3 - 2)) g1 = Some i → (2 ≤ i < 3)%nat
        | Raise e w1 =>
            _crossover_inner_step 0%nat 1%nat NoRng (Stub.world_mismatch [0%N])
            = Raise e w1
        end.
Proof.
  assert (objects (Stub.world_mismatch [0%N]) !! 0%nat = Some Stub.abc) as Hs
    by (vm_compute; reflexivity).
  assert (objects (Stub.world_mismatch [0%N]) !! 1%nat = Some Stub.de) as Ho
    by (vm_compute; reflexivity).
  assert (length (pipeline Stub.de) < length (pipeline Stub.abc))%nat as Hlt
    by (simpl; lia).
  split; [exact Hs |]. split; [exact Ho |]. split; [exact Hlt |].
  exact (inner_step_shorter_other 0%nat 1%nat NoRng (Stub.world_mismatch [0%N])
           Stub.abc Stub.de Hs Ho Hlt).
Defined.

(** C7.  Inner-step runs first, the Steps A and B take the draws of D and
    E, and the call then fails at index 2: the two changes stay. *)
Lemma failed_crossover_keeps_step_changes :
  raised (_crossover 0%nat 1%nat NoRng (Stub.world_mismatch [0; 0]%N))
  = Some (IndexError 2)
  ∧ steps (Stub.world_mismatch [0; 0]%N) !! 0%nat
    = Some {| Stub.label := "A"; Stub.rng_draw := 1 |}
  ∧ steps (final_state (_crossover 0%nat 1%nat NoRng (Stub.world_mismatch [0; 0]%N)))
      !! 0%nat
    = Some {| Stub.label := "A"; Stub.rng_draw := 4 |}.
Proof. repeat split; vm_compute; reflexivity. Qed.

Lemma failed_call_keeps_pipelines_witness :
  objects (final_state (_crossover 0%nat 1%nat NoRng (Stub.world_mismatch [0; 0]%N)))
  = objects (Stub.world_mismatch [0; 0]%N).
Proof.
  apply (failed_call_keeps_pipelines 0%nat 1%nat NoRng (Stub.world_mismatch [0; 0]%N)
           (IndexError 2)).
  right. vm_compute. reflexivity.
Defined.

(** C8.  Two Steps that share an identity, such as any two Steps of the
    stub search space, can change places without the key changing. *)
Lemma reordering_equal_ids_keeps_key :
  let x := [Stub.marker "S"; Stub.marker "S"] in
  let p := [0; 1]%nat in
  let p' := <[0%nat := 1%nat]> (<[1%nat := 0%nat]> p) in
  p' = [1; 0]%nat ∧ p' ≠ p ∧ unique_id_of x p' = unique_id_of x p.
Proof. repeat split. discriminate. Qed.

(** Scenario 5: the keys of [[A, B]] and [[B, A]] differ. *)
Lemma unique_id_follows_step_ids_witness :
  unique_id_of Stub.markers [1; 0]%nat ≠ unique_id_of Stub.markers [0; 1]%nat.
Proof.
  destruct (unique_id_follows_step_ids Stub.markers Stub.markers [0; 1]%nat [0; 1]%nat)
    as (_ & _ & _ & H & _).
  apply (H 0%nat 1%nat 0%nat 1%nat); [reflexivity | reflexivity |].
  vm_compute. discriminate.
Defined.

Lemma mutate_add_node_inserts_witness :
  objects (Stub.world_abc [5%N]) !! 0%nat = Some Stub.abc
  ∧ ∃ w' p', _mutate_add_node 0%nat NoRng (Stub.world_abc [5%N]) = Ret None w'
             ∧ Stub.pipeline_at 0 w' = Some p'
             ∧ length p' = 4%nat ∧ last p' = Some 2%nat.
Proof.
  assert (objects (Stub.world_abc [5%N]) !! 0%nat = Some Stub.abc) as Hs
    by (vm_compute; reflexivity).
  split; [exact Hs |].
  assert (pipeline Stub.abc ≠ []) as Hne by (simpl; discriminate).
  destruct (mutate_add_node_inserts 0%nat NoRng (Stub.world_abc [5%N]) Stub.abc Hs Hne
              (stub_generate_total _))
    as (new_node & idx & g & g' & w' & p' & Heq & _ & _ & _ & Hobj & Hlen & Hlast).
  exists w', p'. split; [exact Heq |].
  split; [| split; [exact Hlen | exact Hlast]].
  unfold Stub.pipeline_at. rewrite Hobj. rewrite lookup_insert_eq. reflexivity.
Defined.

Lemma inner_step_keeps_structure_witness :
  objects (Stub.world_swap [0%N]) !! 1%nat = Some Stub.ef
  ∧ objects (Stub.world_swap [0%N]) !! 0%nat = Some Stub.abcd
  ∧ objects (final_state (_crossover_inner_step 1%nat 0%nat NoRng (Stub.world_swap [0%N])))
    = objects (Stub.world_swap [0%N])
  ∧ ∃ ok w', _crossover_inner_step 1%nat 0%nat NoRng (Stub.world_swap [0%N]) = Ret ok w'.
Proof.
  assert (objects (Stub.world_swap [0%N]) !! 1%nat = Some Stub.ef) as Hs
    by (vm_compute; reflexivity).
  assert (objects (Stub.world_swap [0%N]) !! 0%nat = Some Stub.abcd) as Ho
    by (vm_compute; reflexivity).
  split; [exact Hs |]. split; [exact Ho |].
  destruct (inner_step_keeps_structure 1%nat 0%nat NoRng (Stub.world_swap [0%N])
              Stub.ef Stub.abcd Hs Ho) as (Hobj & _ & Hret).
  split; [exact Hobj |].
  apply (Hret ltac:(simpl; lia) (λ x, length x = 6%nat) eq_refl).
  intros a b g x Ha Hb Hx.
  destruct (stub_crossover_total_on x a b g) as (r & x' & Heq & Hlen).
  - rewrite Hx. apply list_elem_of_In in Ha. simpl in Ha. lia.
  - rewrite Hx. apply list_elem_of_In in Hb. simpl in Hb. lia.
  - exists r, g, x'. split; [exact Heq | congruence].
Defined.


(** * Further properties of the code *)

Section Further.
Context {G SS Step X K : Type}.
Context `{!BitGenerator G} `{!StepContract G SS Step X K}.

Implicit Types (w : @World SS Step X) (self other : addr) (rng : RngArg G).
Implicit Types (ind : @DynamicLinearPipelineIndividual SS Step).
Local Abbreviation unchanged := (@same_objects SS Step X).

(** ** Shapes and exchanges *)

Lemma with_pipeline_id ind : with_pipeline (pipeline ind) ind = ind.
Proof. by destruct ind. Qed.

Lemma shape_objects w w' : objects w' = objects w → shape w' = shape w.
Proof. intros H. unfold shape. by rewrite H. Qed.

Lemma shape_lengths w w' : shape w' = shape w → lengths w' = lengths w.
Proof.
  intros H. apply map_eq. intros a. apply (f_equal (λ m, m !! a)) in H.
  unfold shape, lengths in *. rewrite !lookup_fmap in *.
  destruct (objects w' !! a), (objects w !! a); simpl in *; congruence.
Qed.

Lemma shape_lookup w w' a ind :
  shape w' = shape w → objects w !! a = Some ind →
  ∃ ind', objects w' !! a = Some ind'
          ∧ search_space ind' = search_space ind
          ∧ min_length ind' = min_length ind ∧ max_length ind' = max_length ind
          ∧ length (pipeline ind') = length (pipeline ind).
Proof.
  intros H Ha. apply (f_equal (λ m, m !! a)) in H. unfold shape in H.
  rewrite !lookup_fmap, Ha in H. destruct (objects w' !! a) as [ind' |]; [| done].
  simpl in H. injection H as H1 H2 H3 H4. by exists ind'.
Qed.

Lemma shape_insert w a ind (p : list Step) :
  objects w !! a = Some ind → length p = length (pipeline ind) →
  shape (set_objects (<[a := with_pipeline p ind]> (objects w)) w) = shape w.
Proof.
  intros Ha Hlen. unfold shape. simpl. rewrite fmap_insert. simpl.
  apply insert_id. rewrite lookup_fmap, Ha. simpl. by rewrite Hlen.
Qed.

Lemma exchanged_objects self other w w' :
  objects w' = objects w → exchanged self other w w'.
Proof.
  intros H. split; [by apply shape_objects |]. split; [| by intros a _ _; rewrite H].
  unfold joint_steps, pipeline_or_empty. by rewrite H.
Qed.

Lemma exchanged_trans self other w1 w2 w3 :
  exchanged self other w1 w2 → exchanged self other w2 w3 → exchanged self other w1 w3.
Proof.
  intros (Hs1 & Hj1 & Hf1) (Hs2 & Hj2 & Hf2). split; [congruence |]. split.
  - by rewrite Hj2.
  - intros a Ha Hb. rewrite Hf2 by done. by apply Hf1.
Qed.

(** One exchange with both indices in range returns, and has at most moved
    Steps between the two pipelines. *)
Lemma swap_step_exchanged self other (i j : nat) w s o :
  objects w !! self = Some s → objects w !! other = Some o →
  (i < length (pipeline s))%nat → (j < length (pipeline o))%nat →
  ∃ w', swap_step self other i j w = Ret () w'
        ∧ exchanged self other w w' ∧ steps w' = steps w.
Proof.
  intros Hs Ho Hi Hj.
  destruct (lookup_lt_is_Some_2 (pipeline s) i Hi) as [b Hb].
  destruct (lookup_lt_is_Some_2 (pipeline o) j Hj) as [a Ha].
  unfold swap_step. unfold_monad.
  rewrite (getitem_Some other j o a) by done.
  rewrite (getitem_Some self i s b) by done.
  rewrite (setitem_Some self i s) by (done || lia).
  destruct (decide (self = other)) as [<- | Hne].
  - assert (o = s) as -> by congruence.
    rewrite (setitem_Some self j (with_pipeline (<[i := a]> (pipeline s)) s))
      by (simpl; (by rewrite lookup_insert_eq) || (rewrite length_insert; lia)).
    eexists. split; [done |]. split; [| done].
    unfold exchanged, set_objects. cbn [objects]. split; [| split].
    + unfold shape. cbn [objects]. rewrite !fmap_insert. cbn [with_pipeline
        search_space min_length max_length pipeline]. rewrite insert_insert_eq.
      apply insert_id. rewrite lookup_fmap, Hs. simpl. by rewrite !length_insert.
    + unfold joint_steps, pipeline_or_empty. rewrite !decide_True by done.
      cbn [objects]. rewrite lookup_insert_eq, Hs. simpl.
      by apply Permutation_insert_swap.
    + intros c Hc _. by rewrite !lookup_insert_ne.
  - rewrite (setitem_Some other j o)
      by (simpl; (by rewrite lookup_insert_ne) || lia).
    eexists. split; [done |]. split; [| done].
    unfold exchanged, set_objects. cbn [objects]. split; [| split].
    + unfold shape. cbn [objects]. rewrite !fmap_insert. cbn [with_pipeline
        search_space min_length max_length pipeline].
      rewrite (insert_id _ other); [rewrite (insert_id _ self) |].
      * done.
      * rewrite lookup_fmap, Hs. simpl. by rewrite length_insert.
      * rewrite lookup_insert_ne by done. rewrite lookup_fmap, Ho. simpl.
        by rewrite length_insert.
    + unfold joint_steps, pipeline_or_empty. rewrite !decide_False by done.
      cbn [objects]. rewrite lookup_insert_eq.
      rewrite lookup_insert_ne, lookup_insert_eq by done.
      rewrite Hs, Ho. simpl.
      assert (<[i := a]> (pipeline s) ++ <[j := b]> (pipeline o)
              = <[(length (pipeline s) + j)%nat := b]>
                  (<[i := a]> (pipeline s ++ pipeline o))) as ->.
      { rewrite insert_app_l by done.
        rewrite insert_app_r_alt by (rewrite length_insert; lia).
        rewrite length_insert.
        by replace (length (pipeline s) + j - length (pipeline s))%nat with j by lia. }
      apply Permutation_insert_swap.
      * by apply lookup_app_l_Some.
      * rewrite lookup_app_r by lia.
        by replace (length (pipeline s) + j - length (pipeline s))%nat with j by lia.
    + intros c Hc Hc'. by rewrite !lookup_insert_ne.
Qed.

Lemma swap_steps_exchanged self other (pairs : list (nat * nat)) (ns no : nat) w :
  lengths w !! self = Some ns → lengths w !! other = Some no →
  Forall (λ ij, (ij.1 < ns)%nat ∧ (ij.2 < no)%nat) pairs →
  ∃ w', swap_steps self other pairs w = Ret () w'
        ∧ exchanged self other w w' ∧ steps w' = steps w.
Proof.
  intros Hs Ho Hpairs. revert w Hs Ho.
  induction Hpairs as [| [i j] pairs [Hi Hj] _ IH]; intros w Hs Ho.
  - simpl. unfold ret. eexists. split; [done |]. split; [| done].
    by apply exchanged_objects.
  - simpl in *. unfold_monad.
    pose proof Hs as Hs'. pose proof Ho as Ho'.
    apply lengths_lookup in Hs' as (s & Hs' & <-).
    apply lengths_lookup in Ho' as (o & Ho' & <-).
    destruct (swap_step_exchanged self other i j w s o) as (w1 & -> & Hex1 & Hx1);
      try done.
    pose proof (shape_lengths w w1 (proj1 Hex1)) as Hl1.
    destruct (IH w1) as (w2 & -> & Hex2 & Hx2); [by rewrite Hl1 | by rewrite Hl1 |].
    exists w2. split; [done |]. split; [by eapply exchanged_trans | congruence].
Qed.

Lemma choice_no_replace_raises (n : nat) (size : Z) (g : G) w e w' :
  choice_no_replace n size g w = Raise e w' → ∃ msg, e = ValueError msg.
Proof.
  unfold choice_no_replace.
  destruct (Z.ltb_spec size 0); [intros [= <- _]; eauto |].
  destruct ((n =? 0)%nat && (0 <? size)); [intros [= <- _]; eauto |].
  destruct (Z.ltb_spec (Z.of_nat n) size); [intros [= <- _]; eauto |].
  destruct (draw_distinct_spec (Z.to_nat size) (seq 0 n) g w) as (l & g' & -> & _);
    [rewrite length_seq; lia | apply NoDup_seq | done].
Qed.

(** What swap-random-steps does in every case: it raises with nothing
    exchanged, or it returns true after the exchange loop has run over
    in-range pairs of indices. *)
Lemma swap_random_steps_cases self other rng w :
  match _crossover_swap_random_steps self other rng w with
  | Ret ok w' =>
      ok = true ∧ exchanged self other w w' ∧ steps w' = steps w
      ∧ ∀ s o, objects w !! self = Some s → objects w !! other = Some o →
               pipeline s ≠ [] ∧ pipeline o ≠ []
  | Raise e w' =>
      objects w' = objects w ∧ steps w' = steps w
      ∧ ∀ s o, objects w !! self = Some s → objects w !! other = Some o →
               (pipeline s = [] ∨ pipeline o = []) ∧ ∃ msg, e = ValueError msg
  end.
Proof.
  unfold _crossover_swap_random_steps. unfold_monad. simpl default_rng.
  set (w0 := {| urandom := urandom w; reads := S (reads w);
                steps := steps w; objects := objects w |}).
  destruct (objects w !! self) as [s |] eqn:Hs;
    [| by rewrite (len_pipeline_None self w0)].
  rewrite (len_pipeline_Some self s w0) by done.
  destruct (objects w !! other) as [o |] eqn:Ho;
    [| by rewrite (len_pipeline_None other w0)].
  rewrite (len_pipeline_Some other o w0) by done.
  match goal with |- context [n_steps_to_swap ?m ?g ?w1] =>
    destruct (n_steps_to_swap_spec m g w1) as (n & g1 & -> & Hn1 & Hn2); [lia |];
    set (max_steps := m) in * end.
  assert (max_steps <= Z.max 1 (Z.min (Z.of_nat (length (pipeline s)))
                                      (Z.of_nat (length (pipeline o))))) as Hle.
  { subst max_steps. unfold half_of_min. rewrite Z.quot_div_nonneg by lia.
    pose proof (Z.div_le_upper_bound
                  (Z.min (Z.of_nat (length (pipeline s))) (Z.of_nat (length (pipeline o))))
                  2 (Z.min (Z.of_nat (length (pipeline s)))
                           (Z.of_nat (length (pipeline o))))). lia. }
  assert (1 <= n <= Z.max 1 (Z.min (Z.of_nat (length (pipeline s)))
                                   (Z.of_nat (length (pipeline o))))) as Hn.
  { destruct (decide (max_steps = 1)) as [H1 | H1];
      [rewrite (Hn1 H1) | specialize (Hn2 H1)]; lia. }
  rewrite !Nat2Z.id.
  assert (Z.of_nat (length (pipeline o)) < n → pipeline o = []) as Hnilo.
  { intros Hl. destruct (pipeline o); [done | simpl in *; lia]. }
  assert (Z.of_nat (length (pipeline s)) < n → pipeline s = []) as Hnils.
  { intros Hl. destruct (pipeline s); [done | simpl in *; lia]. }
  match goal with |- context [choice_no_replace ?a ?b ?c ?d] =>
    pose proof (choice_no_replace_spec a b c d) as Hc1;
    destruct (choice_no_replace a b c d) as [[other_idx g2] w1 | e w1] eqn:Hch1 end.
  2: { destruct Hc1 as [-> Hc1]. split; [done |]. split; [done |].
       intros s' o' [= <-] [= <-]. split.
       - right. apply Hnilo. lia.
       - by eapply choice_no_replace_raises. }
  destruct Hc1 as (-> & Hlo & _ & Hro).
  match goal with |- context [choice_no_replace ?a ?b ?c ?d] =>
    pose proof (choice_no_replace_spec a b c d) as Hc2;
    destruct (choice_no_replace a b c d) as [[self_idx g3] w1 | e w1] eqn:Hch2 end.
  2: { destruct Hc2 as [-> Hc2]. split; [done |]. split; [done |].
       intros s' o' [= <-] [= <-]. split.
       - left. apply Hnils. lia.
       - by eapply choice_no_replace_raises. }
  destruct Hc2 as (-> & Hls & _ & Hrs).
  destruct (swap_steps_exchanged self other (zip self_idx other_idx)
              (length (pipeline s)) (length (pipeline o)) w0)
    as (w' & -> & Hex & Hst).
  { apply lengths_lookup. by exists s. }
  { apply lengths_lookup. by exists o. }
  { by apply zip_in_range. }
  split; [done |]. split; [| split; [done |]].
  - eapply exchanged_trans; [| exact Hex]. by apply exchanged_objects.
  - intros s' o' [= <-] [= <-].
    destruct self_idx as [| i1 self_idx]; [simpl in Hls; lia |].
    destruct other_idx as [| j1 other_idx]; [simpl in Hlo; lia |].
    apply Forall_cons in Hrs as [Hi1 _]. apply Forall_cons in Hro as [Hj1 _].
    split; intros Hnil; rewrite Hnil in *; simpl in *; lia.
Qed.

(** ** Swap-random-steps and the top-level crossover *)

(** Swap-random-steps, whether it returns or raises, at most moves Steps
    between the two pipelines: every individual keeps its search space, its
    bounds and the length of its pipeline, the two pipelines hold between
    them the same Steps as before, each as often as before, individuals
    other than the two are untouched, and no Step's state changes. *)
Theorem swap_random_steps_moves_steps_only self other rng w :
  let w' := final_state (_crossover_swap_random_steps self other rng w) in
  exchanged self other w w' ∧ steps w' = steps w.
Proof.
  pose proof (swap_random_steps_cases self other rng w) as H.
  destruct (_crossover_swap_random_steps self other rng w) as [ok w' | e w']; simpl.
  - tauto.
  - destruct H as (Hobj & Hst & _). split; [by apply exchanged_objects | done].
Qed.

(** When one of the two pipelines is empty, swap-random-steps raises a
    [ValueError] and has changed neither an individual nor a Step. *)
Theorem swap_random_steps_empty_raises self other rng w s o :
  objects w !! self = Some s → objects w !! other = Some o →
  pipeline s = [] ∨ pipeline o = [] →
  ∃ msg w', _crossover_swap_random_steps self other rng w = Raise (ValueError msg) w'
            ∧ objects w' = objects w ∧ steps w' = steps w.
Proof.
  intros Hs Ho Hnil.
  pose proof (swap_random_steps_cases self other rng w) as H.
  destruct (_crossover_swap_random_steps self other rng w) as [ok w' | e w'].
  - destruct H as (_ & _ & _ & H). destruct (H s o Hs Ho). tauto.
  - destruct H as (Hobj & Hst & H). destruct (H s o Hs Ho) as (_ & msg & ->).
    by exists msg, w'.
Qed.

(** The top-level crossover either returns true, after at most moving
    Steps between the two pipelines, or raises, with every individual as it
    was. *)
Lemma crossover_cases self other rng w :
  match _crossover self other rng w with
  | Ret ok w' => ok = true ∧ exchanged self other w w'
  | Raise e w' => objects w' = objects w
  end.
Proof.
  destruct (crossover_unfold self other rng w)
    as (first & second & g & w0 & Hord & Hobj & _ & _ & _ & ->).
  unfold try_in_order.
  pose proof (swap_random_steps_cases self other (Gen g)) as Hsw.
  pose proof (keeps_crossover_inner_step self other (Gen g)) as Hin.
  assert (exchanged self other w w0) as Hex0 by by apply exchanged_objects.
  destruct Hord as [[= -> ->] | [= -> ->]]; simpl.
  - specialize (Hsw w0).
    destruct (_crossover_swap_random_steps self other (Gen g) w0) as [[|] w1 | e1 w1].
    + split; [done |]. eapply exchanged_trans; [exact Hex0 | tauto].
    + by destruct Hsw.
    + destruct Hsw as [-> _]. done.
  - specialize (Hin w0). unfold same_objects in Hin.
    destruct (_crossover_inner_step self other (Gen g) w0) as [[|] w1 | e1 w1];
      simpl in Hin.
    + split; [done |]. apply exchanged_objects. congruence.
    + specialize (Hsw w1).
      destruct (_crossover_swap_random_steps self other (Gen g) w1) as [ok w2 | e2 w2].
      * destruct Hsw as (-> & Hex & _). split; [done |].
        eapply exchanged_trans; [| exact Hex]. apply exchanged_objects. congruence.
      * destruct Hsw as [-> _]. congruence.
    + congruence.
Qed.

Lemma crossover_keeps_shape self other rng w :
  shape (final_state (_crossover self other rng w)) = shape w.
Proof.
  pose proof (crossover_cases self other rng w) as H.
  destruct (_crossover self other rng w) as [ok w' | e w']; simpl.
  - by destruct H as (_ & H & _).
  - by apply shape_objects.
Qed.

(** [_crossover] never returns false: swap-random-steps is always among
    the strategies tried and reports nothing but success, so the final
    [return False] is not reached. *)
Theorem crossover_never_returns_false self other rng w w' :
  _crossover self other rng w ≠ Ret false w'.
Proof.
  intros Heq. pose proof (crossover_cases self other rng w) as H.
  rewrite Heq in H. by destruct H.
Qed.

(** The top-level crossover, whether it returns or raises, loses and
    duplicates no Step: the two pipelines hold between them the same Steps
    as before, each as often as before; every individual keeps its search
    space, its bounds and the length of its pipeline; and individuals other
    than the two are untouched. *)
Theorem crossover_conserves_steps self other rng w :
  exchanged self other w (final_state (_crossover self other rng w)).
Proof.
  pose proof (crossover_cases self other rng w) as H.
  destruct (_crossover self other rng w) as [ok w' | e w']; simpl.
  - tauto.
  - by apply exchanged_objects.
Qed.

(** With two non-empty pipelines, [other]'s at least as long as [self]'s,
    and Steps whose crossover does not raise, the top-level crossover
    returns true. *)
Theorem crossover_returns_true self other rng w s o (Inv : X → Prop) :
  objects w !! self = Some s → objects w !! other = Some o →
  pipeline s ≠ [] → pipeline o ≠ [] →
  (length (pipeline s) ≤ length (pipeline o))%nat →
  Inv (steps w) → crossover_returns Inv (pipeline s) (pipeline o) →
  ∃ w', _crossover self other rng w = Ret true w'.
Proof.
  intros Hs Ho Hsne Hone Hlen Hinv Htot.
  destruct (crossover_unfold self other rng w)
    as (first & second & g & w0 & Hord & Hobj & Hst & _ & _ & ->).
  unfold try_in_order. rewrite <- Hobj in Hs, Ho. rewrite <- Hst in Hinv.
  assert (∀ w1, objects w1 = objects w0 →
            ∃ w2, _crossover_swap_random_steps self other (Gen g) w1 = Ret true w2)
    as Hswap.
  { intros w1 Hw1. pose proof (swap_random_steps_cases self other (Gen g) w1) as H.
    rewrite Hw1 in H.
    destruct (_crossover_swap_random_steps self other (Gen g) w1) as [ok w2 | e w2].
    - destruct H as [-> _]. eauto.
    - destruct H as (_ & _ & H). destruct (H s o Hs Ho) as [[? | ?] _]; done. }
  destruct Hord as [[= -> ->] | [= -> ->]]; simpl.
  - destruct (Hswap w0 eq_refl) as (w2 & ->). eauto.
  - destruct (inner_step_unfold self other (Gen g) w0 s Hs)
      as (g0 & w0' & Hobj' & Hst' & ->).
    rewrite <- Hobj' in Hs, Ho. rewrite <- Hst' in Hinv.
    pose proof (keeps_inner_step_loop self other (seq 0 (length (pipeline s)))
                  (false, g0) w0') as Hkeep.
    destruct (inner_step_loop_total self other (seq 0 (length (pipeline s))) (false, g0)
                w0' s o Inv Htot Hinv Hs Ho) as ([ok g1] & w1 & Heq).
    { apply Forall_forall. intros i Hi. apply elem_of_seq in Hi. lia. }
    rewrite Heq in Hkeep |- *. simpl in Hkeep. unfold same_objects in Hkeep.
    destruct ok; [eauto |].
    destruct (Hswap w1) as (w2 & ->); [congruence | eauto].
Qed.

(** ** The mutation operators *)

(** On a non-empty pipeline the remove operator returns [None] after
    deleting the Step at one index of the pipeline: the pipeline is one
    shorter, the Steps that stay keep their order, and no Step's state
    changes.  The operator itself does not look at [min_length]. *)
Theorem mutate_remove_node_deletes self rng w ind :
  objects w !! self = Some ind →
  pipeline ind ≠ [] →
  ∃ (idx : nat) w' p',
    _mutate_remove_node self rng w = Ret None w'
    ∧ (idx < length (pipeline ind))%nat
    ∧ p' = delete idx (pipeline ind)
    ∧ objects w' = <[self := with_pipeline p' ind]> (objects w)
    ∧ steps w' = steps w
    ∧ S (length p') = length (pipeline ind)
    ∧ p' `sublist_of` pipeline ind.
Proof.
  intros Hself Hne.
  pose proof (mutate_remove_node_spec self rng w ind Hself) as H.
  destruct (_mutate_remove_node self rng w) as [r w' | e w'].
  - destruct H as (-> & Hst & idx & Hidx & Hobj).
    exists idx, w', (delete idx (pipeline ind)). do 5 (split; [done |]). split.
    + rewrite length_delete by (by apply lookup_lt_is_Some_2). lia.
    + apply sublist_delete.
  - by destruct H.
Qed.

(** On a non-empty pipeline the step operator picks a Step of the
    pipeline, calls its [mutate] once and hands on what that call does:
    its result when it returns, its exception when it raises.  The
    individuals are as they were. *)
Theorem mutate_step_delegates self rng w ind :
  objects w !! self = Some ind →
  pipeline ind ≠ [] →
  ∃ step g w0,
    step ∈ pipeline ind ∧ objects w0 = objects w ∧ steps w0 = steps w
    ∧ _mutate_step self rng w
      = match step_mutate step g (steps w) with
        | Ret (r, _) x => Ret r (set_steps x w0)
        | Raise e x => Raise e (set_steps x w0)
        end.
Proof.
  intros Hself Hne.
  destruct (mutate_step_spec self rng w ind Hself) as (_ & _ & H).
  destruct (H Hne) as (step & g & w0 & Hin & Hobj & Hst & ->).
  exists step, g, w0. do 3 (split; [done |]).
  unfold_monad. unfold delegate. rewrite Hst.
  by destruct (step_mutate step g (steps w)) as [[r g'] x | e x].
Qed.

(** On an empty pipeline no mutation returns: the remove and the step
    operator raise a [ValueError] with nothing changed, the add operator
    raises after its call of [generate], and so the dispatcher raises
    whichever operator it picks.  The individuals are as they were. *)
Theorem mutate_on_empty_pipeline_raises self rng w ind :
  objects w !! self = Some ind →
  pipeline ind = [] →
  (∃ msg w', _mutate_remove_node self rng w = Raise (ValueError msg) w'
             ∧ objects w' = objects w ∧ steps w' = steps w)
  ∧ (∃ msg w', _mutate_step self rng w = Raise (ValueError msg) w'
               ∧ objects w' = objects w ∧ steps w' = steps w)
  ∧ (∃ e w', _mutate_add_node self rng w = Raise e w' ∧ objects w' = objects w)
  ∧ (∃ e w', mutate self rng w = Raise e w' ∧ objects w' = objects w).
Proof.
  intros Hself Hnil.
  assert (∀ rng' w1, objects w1 = objects w →
            ∃ e w', _mutate_remove_node self rng' w1 = Raise e w'
                    ∧ objects w' = objects w) as Hrem.
  { intros rng' w1 Hw1.
    pose proof (mutate_remove_node_spec self rng' w1 ind) as H.
    rewrite Hw1 in H. specialize (H Hself).
    destruct (_mutate_remove_node self rng' w1) as [r w' | e w'].
    - destruct H as (_ & _ & idx & Hidx & _). rewrite Hnil in Hidx. simpl in Hidx. lia.
    - exists e, w'. split; [done |]. destruct H. congruence. }
  assert (∀ rng' w1, objects w1 = objects w →
            ∃ e w', _mutate_add_node self rng' w1 = Raise e w'
                    ∧ objects w' = objects w) as Hadd.
  { intros rng' w1 Hw1.
    pose proof (mutate_add_node_spec self rng' w1 ind) as H.
    rewrite Hw1 in H. specialize (H Hself).
    destruct (_mutate_add_node self rng' w1) as [r w' | e w'].
    - destruct H as (_ & nn & idx & g & g' & _ & Hidx & _).
      rewrite Hnil in Hidx. simpl in Hidx. lia.
    - exists e, w'. split; [done |]. destruct H. congruence. }
  assert (∀ rng' w1, objects w1 = objects w →
            ∃ e w', _mutate_step self rng' w1 = Raise e w'
                    ∧ objects w' = objects w) as Hstep.
  { intros rng' w1 Hw1.
    pose proof (mutate_step_spec self rng' w1 ind) as H.
    rewrite Hw1 in H. destruct (H Hself) as (Hobj & Hr & _).
    destruct (Hr Hnil) as (e & w' & Heq). exists e, w'. split; [done |].
    rewrite Heq in Hobj. simpl in Hobj. congruence. }
  split; [| split; [| split]].
  - unfold _mutate_remove_node. unfold_monad. simpl.
    rewrite (len_pipeline_Some self ind) by done. rewrite Hnil. simpl.
    unfold integers. simpl. unfold raise. eauto.
  - unfold _mutate_step. unfold_monad. simpl.
    rewrite (get_Some self ind) by done. rewrite Hnil. simpl. unfold raise. eauto.
  - by apply Hadd.
  - destruct (mutate_dispatch self rng w ind Hself) as (op & g & w0 & _ & Hobj & _ & ->).
    destruct op; simpl; [by apply Hrem | by apply Hadd | by apply Hstep].
Qed.

(** What [mutate] leaves behind: the individuals as they were, or [self]
    with another pipeline, within the bounds it was in; in the second case
    it returned [None]. *)
Lemma mutate_outcome self rng w ind :
  objects w !! self = Some ind →
  let n := Z.of_nat (length (pipeline ind)) in
  match mutate self rng w with
  | Ret r w' =>
      objects w' = objects w
      ∨ (r = None
         ∧ ∃ p', objects w' = <[self := with_pipeline p' ind]> (objects w)
                 ∧ (min_length ind <= n → min_length ind <= Z.of_nat (length p'))
                 ∧ (n <= max_length ind → Z.of_nat (length p') <= max_length ind))
  | Raise _ w' => objects w' = objects w
  end.
Proof.
  intros Hself n.
  destruct (mutate_dispatch self rng w ind Hself)
    as (op & g & w0 & Hin & Hobj & _ & ->).
  apply mutate_options_elem in Hin. fold n in Hin. rewrite <- Hobj in Hself |- *.
  destruct op; simpl.
  - pose proof (mutate_remove_node_spec self (Gen g) w0 ind Hself) as H.
    destruct (_mutate_remove_node self (Gen g) w0) as [r w' | e w']; [| tauto].
    destruct H as (-> & _ & idx & Hidx & ->). right. split; [done |].
    eexists. split; [done |].
    rewrite length_delete by (apply lookup_lt_is_Some_2; lia). subst n. lia.
  - pose proof (mutate_add_node_spec self (Gen g) w0 ind Hself) as H.
    destruct (_mutate_add_node self (Gen g) w0) as [r w' | e w']; [| tauto].
    destruct H as (-> & nn & idx & g1 & g2 & _ & Hidx & ->). right. split; [done |].
    eexists. split; [done |].
    rewrite length_app. simpl. rewrite length_take, length_drop. subst n. lia.
  - pose proof (mutate_step_spec self (Gen g) w0 ind Hself) as [H _].
    by destruct (_mutate_step self (Gen g) w0) as [r w' | e w']; [left |].
Qed.

(** [mutate] touches no individual but [self]; and when it returns
    anything but [None], the result of a Step's own [mutate], it has left
    [self]'s pipeline alone as well. *)
Theorem mutate_changes_only_self self rng w :
  let out := mutate self rng w in
  (∀ a, a ≠ self → objects (final_state out) !! a = objects w !! a)
  ∧ (∀ b, returned out = Some (Some b) → objects (final_state out) = objects w).
Proof.
  simpl. destruct (objects w !! self) as [ind |] eqn:Hself.
  - pose proof (mutate_outcome self rng w ind Hself) as H. simpl in H.
    destruct (mutate self rng w) as [r w' | e w']; simpl.
    + destruct H as [H | (-> & p' & H & _)].
      * split; [by intros a _; rewrite H | done].
      * split; [| done]. intros a Ha. rewrite H. by rewrite lookup_insert_ne.
    + split; [by intros a _; rewrite H | done].
  - unfold mutate. unfold_monad. simpl. rewrite get_None by done. simpl.
    split; done.
Qed.

(** ** Construction *)

(** What [generate] leaves behind: when it raises, the individuals as they
    were; when it returns, one more individual at an address that was free,
    with [min_length = 1] and a pipeline within its bounds. *)
Lemma generate_outcome (gen : DynamicLinearPipeline) rng w :
  match generate gen rng w with
  | Ret self w' =>
      objects w !! self = None
      ∧ ∃ ind, objects w' = <[self := ind]> (objects w)
               ∧ min_length ind = 1
               ∧ 1 <= Z.of_nat (length (pipeline ind)) <= max_length ind
  | Raise _ w' => objects w' = objects w
  end.
Proof.
  destruct gen as [ss max_len].
  unfold generate, __init__, _generate_pipeline. simpl. unfold_monad.
  destruct (default_rng_spec rng w) as (g0 & w0 & -> & Hobj0 & _).
  match goal with |- context [integers ?a ?b ?c ?d] =>
    pose proof (integers_spec a b c d) as Hint;
    destruct (integers a b c d) as [[sampled g1] w1 | e1 w1] end.
  - destruct Hint as [-> Hsampled].
    match goal with |- context [generate_steps ?a ?b ?c ?d ?e] =>
      pose proof (generate_steps_spec a b c d e) as Hgen;
      destruct (generate_steps a b c d e) as [p w1 | e1 w1] end.
    + destruct Hgen as (Hlen & Hobj1 & _). simpl in Hlen, Hobj1.
      destruct (allocate_spec {| search_space := ss; min_length := 1;
                                 max_length := max_len; pipeline := p |} w1)
        as (self & w2 & -> & Hfresh & Hobj2).
      rewrite Hobj1, Hobj0 in Hfresh, Hobj2. split; [done |].
      eexists. split; [exact Hobj2 |]. simpl. split; [done | lia].
    + simpl in *. congruence.
  - destruct Hint as [-> _]. done.
Qed.

(** With [max_length <= 1] the sampling interval [[1, max_length)] is
    empty: [generate] raises the [ValueError] of [rng.integers], and has
    made neither an individual nor a Step. *)
Theorem generate_degenerate_raises (gen : DynamicLinearPipeline) rng w :
  gen_max_length gen <= 1 →
  ∃ w', generate gen rng w = Raise (ValueError "low >= high") w'
        ∧ objects w' = objects w ∧ steps w' = steps w.
Proof.
  intros Hmax. destruct gen as [ss max_len]. simpl in Hmax.
  unfold generate, __init__, _generate_pipeline. simpl. unfold_monad.
  destruct (default_rng_spec rng w) as (g0 & w0 & -> & Hobj0 & Hst0 & _).
  unfold integers. destruct (Z.leb_spec max_len 1); [| lia].
  unfold raise. eexists. split; [done |]. by split.
Qed.

(** [generate] never touches an individual that exists: whether it returns
    or raises, each one is afterwards what it was. *)
Theorem generate_keeps_existing (gen : DynamicLinearPipeline) rng w a ind :
  objects w !! a = Some ind →
  objects (final_state (generate gen rng w)) !! a = Some ind.
Proof.
  intros Ha. pose proof (generate_outcome gen rng w) as H.
  destruct (generate gen rng w) as [self w' | e w']; simpl.
  - destruct H as (Hfresh & ind' & -> & _). rewrite lookup_insert_ne; [done |].
    intros ->. congruence.
  - by rewrite H.
Qed.

(** ** The length invariant *)

Lemma within_bounds_shape w w' :
  shape w' = shape w → within_bounds w → within_bounds w'.
Proof.
  intros Hsh Hw a ind' Ha.
  assert (shape w' = shape w) as Hsh' by done. symmetry in Hsh'.
  destruct (shape_lookup w' w a ind' Hsh' Ha) as (ind & Hind & _ & Hmin & Hmax & Hlen).
  specialize (Hw a ind Hind). simpl in Hw. simpl. rewrite <- Hmin, <- Hmax, <- Hlen.
  done.
Qed.

Lemma run_call_within_bounds (c : Call) w :
  within_bounds w → within_bounds (run_call c w).
Proof.
  intros Hw. destruct c as [gen rng | self rng | self other rng]; simpl.
  - pose proof (generate_outcome gen rng w) as H.
    destruct (generate gen rng w) as [self w' | e w']; simpl.
    + destruct H as (_ & ind & Hobj & Hmin & Hlen). unfold within_bounds.
      rewrite Hobj. by apply map_Forall_insert_2.
    + unfold within_bounds. by rewrite H.
  - destruct (objects w !! self) as [ind |] eqn:Hself.
    + pose proof (mutate_outcome self rng w ind Hself) as H. simpl in H.
      pose proof (Hw self ind Hself) as (Hmin & Hlo & Hhi). simpl in *.
      destruct (mutate self rng w) as [r w' | e w']; simpl.
      * destruct H as [H | (_ & p' & H & Hlo' & Hhi')];
          unfold within_bounds; rewrite H; [done |].
        apply map_Forall_insert_2; [| done]. simpl. split; [done | lia].
      * unfold within_bounds. by rewrite H.
    + unfold mutate. unfold_monad. simpl. rewrite get_None by done. done.
  - apply (within_bounds_shape w); [| done].
    apply (crossover_keeps_shape self other rng w).
Qed.

(** Every individual that [generate] builds has [min_length = 1] and a
    pipeline of at least one and at most [max_length] Steps, and no
    sequence of [generate], [mutate] and [_crossover] calls, returning or
    raising, leads out of that. *)
Theorem run_calls_within_bounds (cs : list Call) w :
  within_bounds w → within_bounds (run_calls cs w).
Proof.
  revert w. induction cs as [| c cs IH]; intros w Hw; [done |].
  simpl. apply IH. by apply run_call_within_bounds.
Qed.

(** ** The swap-single-step operator *)

(** Swap-single-step returns false when the two pipelines differ in length
    or have fewer than two Steps, and then it has done nothing at all: it
    has not even seeded a generator. *)
Theorem swap_step_refuses self other rng w s o :
  objects w !! self = Some s → objects w !! other = Some o →
  length (pipeline s) ≠ length (pipeline o) ∨ (length (pipeline s) < 2)%nat →
  _crossover_swap_step self other rng w = Ret false w.
Proof.
  intros Hs Ho Hcond. unfold _crossover_swap_step. unfold_monad.
  rewrite (len_pipeline_Some self s) by done.
  rewrite (len_pipeline_Some other o) by done.
  destruct (Z.eqb_spec (Z.of_nat (length (pipeline s))) (Z.of_nat (length (pipeline o))));
    simpl; [| done].
  destruct (Z.ltb_spec (Z.of_nat (length (pipeline s))) 2); [done | lia].
Qed.

(** On two pipelines of one length, at least two, swap-single-step returns
    true after exchanging the Steps the two pipelines hold at one index,
    the same in both and never 0.  Nothing else moves and no Step's state
    changes. *)
Theorem swap_step_exchanges_one_index self other rng w s o :
  objects w !! self = Some s → objects w !! other = Some o →
  length (pipeline s) = length (pipeline o) → (2 ≤ length (pipeline s))%nat →
  ∃ (idx : nat) a b w',
    _crossover_swap_step self other rng w = Ret true w'
    ∧ (1 ≤ idx < length (pipeline s))%nat
    ∧ pipeline o !! idx = Some a ∧ pipeline s !! idx = Some b
    ∧ exchanged self other w w' ∧ steps w' = steps w
    ∧ (self ≠ other →
       objects w'
       = <[other := with_pipeline (<[idx := b]> (pipeline o)) o]>
           (<[self := with_pipeline (<[idx := a]> (pipeline s)) s]> (objects w))).
Proof.
  intros Hs Ho Hlen Hge. unfold _crossover_swap_step. unfold_monad.
  rewrite (len_pipeline_Some self s) by done.
  rewrite (len_pipeline_Some other o) by done.
  destruct (Z.eqb_spec (Z.of_nat (length (pipeline s))) (Z.of_nat (length (pipeline o))));
    [| lia].
  destruct (Z.ltb_spec (Z.of_nat (length (pipeline s))) 2); [lia |].
  simpl.
  set (w0 := {| urandom := urandom w; reads := S (reads w);
                steps := steps w; objects := objects w |}).
  destruct (integers_ok 1 (Z.of_nat (length (pipeline s)))
              (seed_rng (urandom w (reads w))) w0) as (idx & g1 & -> & Hidx); [lia |].
  destruct (lookup_lt_is_Some_2 (pipeline o) (Z.to_nat idx)) as [a Ha]; [lia |].
  destruct (lookup_lt_is_Some_2 (pipeline s) (Z.to_nat idx)) as [b Hb]; [lia |].
  destruct (swap_step_exchanged self other (Z.to_nat idx) (Z.to_nat idx) w0 s o)
    as (w' & Hswap & Hex & Hst); [done | done | lia | lia |].
  rewrite Hswap. exists (Z.to_nat idx), a, b, w'.
  split; [done |]. split; [lia |]. do 2 (split; [done |]).
  split; [by eapply exchanged_trans; [apply exchanged_objects |] |].
  split; [done |]. intros Hne.
  destruct (swap_steps_exchange self other [(Z.to_nat idx, Z.to_nat idx)] s o w0)
    as (w'' & Hswaps & Hobj); try done.
  { constructor; [simpl; lia | constructor]. }
  simpl in Hswaps. unfold_monad. rewrite Hswap in Hswaps. injection Hswaps as <-.
  rewrite Hobj. simpl. by rewrite Ha, Hb.
Qed.

(** ** More on inner-step *)

Lemma inner_step_loop_all_tails self other (idxs : list nat) (ok : bool) (g : G) w :
  first_heads idxs g = None →
  ∃ g', inner_step_loop self other idxs (ok, g) w = Ret (ok, g') w.
Proof.
  revert g. induction idxs as [| idx idxs IH]; intros g Hfh.
  - simpl. unfold ret. eauto.
  - simpl in *. unfold_monad. unfold random_lt_half. unfold_monad.
    destruct (coin g) as [[|] g1]; [done |]. by apply IH.
Qed.

(** When the coin falls on tails at every index of [self.pipeline], and so
    too when [self.pipeline] is empty, inner-step returns false and has
    touched nothing: it has not read [other] at all. *)
Theorem inner_step_all_tails self other rng w s :
  objects w !! self = Some s →
  first_heads (seq 0 (length (pipeline s))) (seed_rng (urandom w (reads w))) = None →
  _crossover_inner_step self other rng w
  = Ret false {| urandom := urandom w; reads := S (reads w);
                 steps := steps w; objects := objects w |}.
Proof.
  intros Hs Hfh. unfold _crossover_inner_step. unfold_monad. simpl.
  rewrite (len_pipeline_Some self s) by done. rewrite Nat2Z.id.
  destruct (inner_step_loop_all_tails self other (seq 0 (length (pipeline s))) false
              (seed_rng (urandom w (reads w)))
              {| urandom := urandom w; reads := S (reads w);
                 steps := steps w; objects := objects w |} Hfh) as (g' & ->).
  done.
Qed.

Lemma inner_step_loop_flag self other (idxs : list nat) (g : G) w :
  (∀ a b g x r g' x', step_crossover a b g x = Ret (r, g') x' → r = false) →
  ∀ ok g' w', inner_step_loop self other idxs (false, g) w = Ret (ok, g') w' →
              ok = false.
Proof.
  intros Hno. revert g w. induction idxs as [| idx idxs IH]; intros g w ok g' w'.
  - simpl. unfold ret. by intros [= <- _ _].
  - simpl. unfold_monad. unfold random_lt_half. unfold_monad.
    destruct (coin g) as [[|] g1]; [| apply IH].
    destruct (getitem self idx w) as [a w1 | e w1]; [| done].
    destruct (getitem other idx w1) as [b w2 | e w2]; [| done].
    unfold delegate.
    destruct (step_crossover a b g1 (steps w2)) as [[r g2] x | e x] eqn:Hcx; [| done].
    rewrite (Hno _ _ _ _ _ _ _ Hcx). apply IH.
Qed.

(** Inner-step reports success only on the word of a Step: when no call
    of [Step.crossover] returns true, inner-step does not return true. *)
Theorem inner_step_true_needs_step_success self other rng w :
  (∀ a b g x r g' x', step_crossover a b g x = Ret (r, g') x' → r = false) →
  ∀ w', _crossover_inner_step self other rng w ≠ Ret true w'.
Proof.
  intros Hno w'. unfold _crossover_inner_step. unfold_monad. simpl.
  destruct (len_pipeline self _) as [n w1 | e w1]; [| done].
  destruct (inner_step_loop self other (seq 0 (Z.to_nat n)) _ w1)
    as [[ok g1] w2 | e w2] eqn:Hloop; [| done].
  rewrite (inner_step_loop_flag self other _ _ w1 Hno ok g1 w2 Hloop). done.
Qed.
End Further.

(** ** Export *)

Section FurtherExport.
Context {SS Step X E : Type} `{!StepExport Step X E}.

Implicit Types (w : @World SS Step X) (self : addr).

Lemma export_steps_spec (p : list Step) w :
  match export_steps p w with
  | Ret es w' => length es = length p ∧ objects w' = objects w
  | Raise _ w' => objects w' = objects w
  end.
Proof.
  revert w. induction p as [| step p IH]; intros w; [done |].
  simpl. unfold_monad. unfold delegate.
  destruct (step_export_pipeline step (steps w)) as [e x | e x]; [| done].
  specialize (IH (set_steps x w)).
  destruct (export_steps p (set_steps x w)) as [es w' | e' w']; [| done].
  destruct IH as [Hlen Hobj]. simpl. split; [by rewrite Hlen | done].
Qed.

Lemma export_steps_pure (f : Step → E) (p : list Step) w :
  (∀ step, step ∈ p → step_export_pipeline step (steps w) = Ret (f step) (steps w)) →
  export_steps p w = Ret (f <$> p) w.
Proof.
  assert (set_steps (steps w) w = w) as Hw by by destruct w.
  induction p as [| step p IH]; intros Hpure; [done |].
  simpl. unfold_monad. unfold delegate.
  rewrite (Hpure step) by left. rewrite Hw.
  rewrite IH; [done |]. intros step' Hin. apply Hpure. by right.
Qed.

(** [export_pipeline] never changes an individual, and the pipeline it
    returns has one stage for each Step.  When the Steps' exports return
    without changing a Step, it returns, in the same state, the exports of
    the Steps in pipeline order. *)
Theorem export_pipeline_stages self w ind :
  objects w !! self = Some ind →
  objects (final_state (export_pipeline self w)) = objects w
  ∧ (∀ r w', export_pipeline self w = Ret r w' →
       length (stages r) = length (pipeline ind))
  ∧ (∀ f : Step → E,
       (∀ step, step ∈ pipeline ind →
                step_export_pipeline step (steps w) = Ret (f step) (steps w)) →
       export_pipeline self w = Ret (make_pipeline (f <$> pipeline ind)) w).
Proof.
  intros Hself. unfold export_pipeline. unfold_monad.
  rewrite (get_Some self ind) by done.
  pose proof (export_steps_spec (pipeline ind) w) as Hspec.
  split; [| split].
  - destruct (export_steps (pipeline ind) w) as [es w' | e w']; simpl; tauto.
  - intros r w'. destruct (export_steps (pipeline ind) w) as [es w1 | e w1]; [| done].
    intros [= <- <-]. simpl. tauto.
  - intros f Hpure. by rewrite (export_steps_pure f).
Qed.
End FurtherExport.

(** ** The further properties on the stub *)

Lemma world_swap_within_bounds (seeds : list N) : within_bounds (Stub.world_swap seeds).
Proof.
  unfold within_bounds, Stub.world_swap, Stub.world. simpl.
  apply map_Forall_insert_2; [simpl; lia |].
  apply map_Forall_insert_2; [simpl; lia |].
  apply map_Forall_empty.
Qed.

Lemma mutate_remove_node_deletes_witness :
  objects (Stub.world_abc [1%N]) !! 0%nat = Some Stub.abc
  ∧ ∃ w', _mutate_remove_node 0%nat NoRng (Stub.world_abc [1%N]) = Ret None w'
          ∧ steps w' = steps (Stub.world_abc [1%N]).
Proof.
  assert (objects (Stub.world_abc [1%N]) !! 0%nat = Some Stub.abc) as Hs
    by (vm_compute; reflexivity).
  split; [exact Hs |].
  assert (pipeline Stub.abc ≠ []) as Hne by (simpl; discriminate).
  destruct (mutate_remove_node_deletes 0%nat NoRng (Stub.world_abc [1%N]) Stub.abc Hs Hne)
    as (idx & w' & p' & Heq & _ & _ & _ & Hst & _).
  exists w'. split; [exact Heq | exact Hst].
Defined.

Lemma mutate_step_delegates_witness :
  objects (Stub.world_abc [1%N]) !! 0%nat = Some Stub.abc
  ∧ ∃ step, step ∈ pipeline Stub.abc.
Proof.
  assert (objects (Stub.world_abc [1%N]) !! 0%nat = Some Stub.abc) as Hs
    by (vm_compute; reflexivity).
  split; [exact Hs |].
  assert (pipeline Stub.abc ≠ []) as Hne by (simpl; discriminate).
  destruct (mutate_step_delegates 0%nat NoRng (Stub.world_abc [1%N]) Stub.abc Hs Hne)
    as (step & g & w0 & Hin & _).
  exists step. exact Hin.
Defined.

Lemma mutate_on_empty_pipeline_raises_witness :
  objects (StubExport.world_empty [0%N]) !! 0%nat = Some (Stub.individual 5 [])
  ∧ ∃ e w', mutate 0%nat NoRng (StubExport.world_empty [0%N]) = Raise e w'
            ∧ objects w' = objects (StubExport.world_empty [0%N]).
Proof.
  assert (objects (StubExport.world_empty [0%N]) !! 0%nat = Some (Stub.individual 5 []))
    as Hs by (vm_compute; reflexivity).
  split; [exact Hs |].
  apply (mutate_on_empty_pipeline_raises 0%nat NoRng (StubExport.world_empty [0%N])
           (Stub.individual 5 []) Hs eq_refl).
Defined.

Lemma mutate_changes_only_self_witness :
  objects (final_state (mutate 0%nat NoRng (Stub.world_swap [0%N]))) !! 1%nat
  = objects (Stub.world_swap [0%N]) !! 1%nat.
Proof.
  apply (mutate_changes_only_self 0%nat NoRng (Stub.world_swap [0%N])). discriminate.
Defined.

Lemma generate_degenerate_raises_witness :
  gen_max_length StubExport.gen1 <= 1
  ∧ ∃ w', generate StubExport.gen1 (Seed 42) (Stub.world [7%N] [] [])
          = Raise (ValueError "low >= high") w'.
Proof.
  assert (gen_max_length StubExport.gen1 <= 1) as H by (simpl; lia).
  split; [exact H |].
  destruct (generate_degenerate_raises StubExport.gen1 (Seed 42) (Stub.world [7%N] [] []) H)
    as (w' & Heq & _).
  exists w'. exact Heq.
Defined.

Lemma generate_keeps_existing_witness :
  objects (final_state (generate Stub.gen5 NoRng (Stub.world_swap [1; 2]%N))) !! 1%nat
  = Some Stub.ef.
Proof.
  apply (generate_keeps_existing Stub.gen5 NoRng (Stub.world_swap [1; 2]%N)).
  vm_compute. reflexivity.
Defined.

Lemma run_calls_within_bounds_witness :
  within_bounds
    (run_calls [CallGenerate Stub.gen5 (Seed 1); CallMutate 0%nat NoRng;
                CallCrossover 0%nat 1%nat NoRng; CallMutate 2%nat NoRng]
               (Stub.world_swap [1; 2; 3; 4; 5; 6; 7]%N)).
Proof.
  apply run_calls_within_bounds. apply world_swap_within_bounds.
Defined.

Lemma swap_random_steps_empty_raises_witness :
  objects (StubExport.world_empty [0%N]) !! 0%nat = Some (Stub.individual 5 [])
  ∧ objects (StubExport.world_empty [0%N]) !! 1%nat = Some Stub.ef
  ∧ ∃ msg w', _crossover_swap_random_steps 0%nat 1%nat NoRng (StubExport.world_empty [0%N])
              = Raise (ValueError msg) w'.
Proof.
  assert (objects (StubExport.world_empty [0%N]) !! 0%nat = Some (Stub.individual 5 []))
    as Hs by (vm_compute; reflexivity).
  assert (objects (StubExport.world_empty [0%N]) !! 1%nat = Some Stub.ef) as Ho
    by (vm_compute; reflexivity).
  split; [exact Hs |]. split; [exact Ho |].
  destruct (swap_random_steps_empty_raises 0%nat 1%nat NoRng (StubExport.world_empty [0%N])
              (Stub.individual 5 []) Stub.ef Hs Ho (or_introl eq_refl))
    as (msg & w' & Heq & _).
  exists msg, w'. exact Heq.
Defined.

Lemma crossover_never_returns_false_witness :
  _crossover 0%nat 1%nat NoRng (Stub.world_swap [0%N])
  ≠ Ret false (Stub.world_swap [0%N]).
Proof.
  apply (crossover_never_returns_false 0%nat 1%nat NoRng (Stub.world_swap [0%N])).
Defined.

Lemma crossover_returns_true_witness :
  objects (StubExport.world_equal [0; 0; 0]%N) !! 0%nat = Some (Stub.individual 5 [0; 1; 2]%nat)
  ∧ ∃ w', _crossover 0%nat 1%nat NoRng (StubExport.world_equal [0; 0; 0]%N) = Ret true w'.
Proof.
  assert (objects (StubExport.world_equal [0; 0; 0]%N) !! 0%nat
          = Some (Stub.individual 5 [0; 1; 2]%nat)) as Hs by (vm_compute; reflexivity).
  assert (objects (StubExport.world_equal [0; 0; 0]%N) !! 1%nat
          = Some (Stub.individual 5 [3; 4; 5]%nat)) as Ho by (vm_compute; reflexivity).
  split; [exact Hs |].
  apply (crossover_returns_true 0%nat 1%nat NoRng (StubExport.world_equal [0; 0; 0]%N)
           (Stub.individual 5 [0; 1; 2]%nat) (Stub.individual 5 [3; 4; 5]%nat)
           (λ x, length x = 6%nat) Hs Ho).
  - simpl. discriminate.
  - simpl. discriminate.
  - simpl. lia.
  - reflexivity.
  - intros a b g x Ha Hb Hx.
    destruct (stub_crossover_total_on x a b g) as (r & x' & Heq & Hlen).
    + rewrite Hx. apply list_elem_of_In in Ha. simpl in Ha. lia.
    + rewrite Hx. apply list_elem_of_In in Hb. simpl in Hb. lia.
    + exists r, g, x'. split; [exact Heq | congruence].
Defined.

Lemma swap_step_refuses_witness :
  objects (Stub.world_swap [0%N]) !! 0%nat = Some Stub.abcd
  ∧ objects (Stub.world_swap [0%N]) !! 1%nat = Some Stub.ef
  ∧ _crossover_swap_step 0%nat 1%nat NoRng (Stub.world_swap [0%N])
    = Ret false (Stub.world_swap [0%N]).
Proof.
  assert (objects (Stub.world_swap [0%N]) !! 0%nat = Some Stub.abcd) as Hs
    by (vm_compute; reflexivity).
  assert (objects (Stub.world_swap [0%N]) !! 1%nat = Some Stub.ef) as Ho
    by (vm_compute; reflexivity).
  split; [exact Hs |]. split; [exact Ho |].
  apply (swap_step_refuses 0%nat 1%nat NoRng (Stub.world_swap [0%N]) Stub.abcd Stub.ef
           Hs Ho).
  left. simpl. discriminate.
Defined.

Lemma swap_step_exchanges_one_index_witness :
  objects (StubExport.world_equal [0%N]) !! 0%nat = Some (Stub.individual 5 [0; 1; 2]%nat)
  ∧ ∃ w', _crossover_swap_step 0%nat 1%nat NoRng (StubExport.world_equal [0%N])
          = Ret true w'.
Proof.
  assert (objects (StubExport.world_equal [0%N]) !! 0%nat
          = Some (Stub.individual 5 [0; 1; 2]%nat)) as Hs by (vm_compute; reflexivity).
  assert (objects (StubExport.world_equal [0%N]) !! 1%nat
          = Some (Stub.individual 5 [3; 4; 5]%nat)) as Ho by (vm_compute; reflexivity).
  split; [exact Hs |].
  destruct (swap_step_exchanges_one_index 0%nat 1%nat NoRng (StubExport.world_equal [0%N])
              (Stub.individual 5 [0; 1; 2]%nat) (Stub.individual 5 [3; 4; 5]%nat)
              Hs Ho eq_refl)
    as (idx & a & b & w' & Heq & _).
  - simpl. lia.
  - exists w'. exact Heq.
Defined.

Lemma inner_step_all_tails_witness :
  objects (Stub.world_abc [StubExport.tails_tails_tails]) !! 0%nat = Some Stub.abc
  ∧ returned (_crossover_inner_step 0%nat 7%nat NoRng
                (Stub.world_abc [StubExport.tails_tails_tails])) = Some false.
Proof.
  assert (objects (Stub.world_abc [StubExport.tails_tails_tails]) !! 0%nat = Some Stub.abc)
    as Hs by (vm_compute; reflexivity).
  split; [exact Hs |].
  rewrite (inner_step_all_tails 0%nat 7%nat NoRng
             (Stub.world_abc [StubExport.tails_tails_tails]) Stub.abc Hs).
  - reflexivity.
  - vm_compute. reflexivity.
Defined.

Lemma inner_step_true_needs_step_success_witness :
  returned (@_crossover_inner_step N string nat (list Stub.Marker) string
              Stub.tape_generator StubExport.frozen_contract
              0%nat 1%nat NoRng (StubExport.world_equal [0%N]))
  = Some false
  ∧ @_crossover_inner_step N string nat (list Stub.Marker) string
      Stub.tape_generator StubExport.frozen_contract
      0%nat 1%nat NoRng (StubExport.world_equal [0%N])
    ≠ Ret true (StubExport.world_equal [0%N]).
Proof.
  split; [vm_compute; reflexivity |].
  apply (@inner_step_true_needs_step_success N string nat (list Stub.Marker) string
           Stub.tape_generator StubExport.frozen_contract).
  intros a b g x r g' x' Heq. simpl in Heq. by injection Heq as <- _ _.
Defined.

Lemma export_pipeline_stages_witness :
  objects (Stub.world_abc [0%N]) !! 0%nat = Some Stub.abc
  ∧ export_pipeline 0%nat (Stub.world_abc [0%N])
    = Ret (make_pipeline ["A"; "B"; "C"]) (Stub.world_abc [0%N]).
Proof.
  assert (objects (Stub.world_abc [0%N]) !! 0%nat = Some Stub.abc) as Hs
    by (vm_compute; reflexivity).
  split; [exact Hs |].
  destruct (export_pipeline_stages 0%nat (Stub.world_abc [0%N]) Stub.abc Hs)
    as (_ & _ & H).
  apply (H (λ step, Stub.stub_unique_id step Stub.markers)).
  intros step Hin. apply list_elem_of_In in Hin. simpl in Hin.
  destruct Hin as [<- | [<- | [<- | []]]]; reflexivity.
Defined.
